(** * deSPAC warrant Monte Carlo valuation: a shallow embedding

    Embedding of [despac_warrant_mc.py]: the discounting helper [DCF] and the
    pricing function [price_warrant].

    Modelling conventions.
    - numpy's float64 values are read as real numbers ([R]); the maturity [T]
      only feeds the step count [int(T/dt)], so it is a rational ([Q]) and the
      step count is computed exactly.
    - A 2-D array is a list of rows.  Every numpy statement of the two
      functions acts on whole columns, row by row and with no interaction
      between rows; the embedding runs each time loop on one row and maps it
      over the rows.  The valuation that the source performs inside the
      backward loop reads the whole cash-flow matrix and is kept there.
    - A 1-D array indexed by time is a list; [upd] is an index assignment,
      [slice] a Python slice, [fill_from] the assignment [a[k:] = v].
    - Python exceptions are the [Raise] results of the [result] type.
    - The stream of normal deviates that numpy produces after
      [np.random.seed(1234)] is a parameter, [gauss]. *)

From Stdlib Require Import List Arith Lia ZArith QArith Qround Reals Lra Bool.
Import ListNotations.
Local Open Scope R_scope.

(* ================================================================== *)
(** * Arrays *)

Section Arrays.
Context {A : Type}.

(** [a[i] = v]; every index assignment of the source is in range. *)
Fixpoint upd (l : list A) (i : nat) (v : A) : list A :=
  match l, i with
  | [], _ => []
  | _ :: tl, O => v :: tl
  | hd :: tl, S i' => hd :: upd tl i' v
  end.

(** [a[lo:hi]] for [0 <= lo]: Python clips a slice to the array. *)
Definition slice (lo hi : nat) (l : list A) : list A :=
  firstn (hi - lo) (skipn lo l).

(** [a[k:] = v]. *)
Definition fill_from (k : nat) (v : A) (l : list A) : list A :=
  firstn k l ++ repeat v (length l - k).
End Arrays.

(** [range(lo, hi)] and [range(hi, lo, -1)]. *)
Definition range (lo hi : nat) : list nat := seq lo (hi - lo).
Definition range_down (hi lo : nat) : list nat := rev (seq (lo + 1) (hi - lo)).

(** Comparisons of floats as booleans. *)
Definition Rleb (x y : R) : bool := if Rle_dec x y then true else false.
Definition Rltb (x y : R) : bool := if Rlt_dec x y then true else false.
Definition Reqb (x y : R) : bool := if Req_dec_T x y then true else false.

(** [a.sum()], [a.mean()], [a.std()] (population standard deviation). *)
Definition sum (l : list R) : R := fold_right Rplus 0 l.
Definition mean (l : list R) : R := sum l / INR (length l).
Definition std (l : list R) : R :=
  sqrt (mean (map (fun x => Rabs (x - mean l) ^ 2) l)).

(* ================================================================== *)
(** * Exceptions *)

Inductive exn : Type := IndexError | ValueError | UnboundLocalError.

Inductive result (A : Type) : Type :=
| Ok (a : A)
| Raise (e : exn).
Arguments Ok {A} a.
Arguments Raise {A} e.

Definition bind {A B} (m : result A) (k : A -> result B) : result B :=
  match m with
  | Ok a => k a
  | Raise e => Raise e
  end.

Notation "x <- m ;; k" := (bind m (fun x => k))
  (at level 61, m at next level, right associativity).

Fixpoint mapM {A B} (f : A -> result B) (l : list A) : result (list B) :=
  match l with
  | [] => Ok []
  | a :: tl => b <- f a ;; bs <- mapM f tl ;; Ok (b :: bs)
  end.

Fixpoint foldM {A B} (f : A -> B -> result A) (l : list B) (a : A) : result A :=
  match l with
  | [] => Ok a
  | b :: tl => a' <- f a b ;; foldM f tl a'
  end.

(* ================================================================== *)
(** * DCF *)

(** The argument of [DCF]: a 1-D or a 2-D array. *)
Inductive ndarray : Type :=
| Arr1 (v : list R)
| Arr2 (m : list (list R)).

(** One row of [DCF]: [dcf_out] is the row of the output array, and the
    result is its column 0. *)
Definition DCF_row (disc_factor : R) (cf_in : list R) : result R :=
  let n := length cf_in in
  let dcf_out := repeat 0 n in
  if (1 <? n)%nat then
    let dcf_out :=
      upd dcf_out (n - 1)
          (disc_factor * nth (n - 1) cf_in 0 + nth (n - 2) cf_in 0) in
    let dcf_out :=
      if (2 <? n)%nat then
        fold_left
          (fun out t =>
             upd out t (disc_factor * nth (t + 1) out 0 + nth (t - 1) cf_in 0))
          (range_down (n - 2) 0) dcf_out
      else dcf_out in
    let dcf_out := upd dcf_out 0 (disc_factor * nth 1 dcf_out 0) in
    Ok (nth 0 dcf_out 0)
  else
    match map (Rmult disc_factor) cf_in with
    | [] => Raise IndexError
    | pv :: _ => Ok pv
    end.

Definition DCF (cf_in : ndarray) (disc_factor : R) : result (list R) :=
  let rows :=
    match cf_in with
    | Arr1 v => map (fun c => [c]) v
    | Arr2 m => m
    end in
  mapM (DCF_row disc_factor) rows.

(** The recursion of the specification, on cash flows [cf 1 .. cf n]:
    [PV_acc cf d n k] is PV(n - k), so PV(n) = d cf(n) + cf(n-1) and
    PV(t) = d PV(t+1) + cf(t-1). *)
Fixpoint PV_acc (cf : nat -> R) (d : R) (n k : nat) : R :=
  match k with
  | O => d * cf n + cf (n - 1)%nat
  | S k' => d * PV_acc cf d n k' + cf (n - k - 1)%nat
  end.

(** PV(t) of the specification.  The recursion stops at t = 2; the value the
    specification discounts once more, which it calls PV(1), is the last
    accumulated one. *)
Definition PV (cf : nat -> R) (d : R) (n t : nat) : R :=
  match t with
  | O => d * PV_acc cf d n (n - 2)
  | S O => PV_acc cf d n (n - 2)
  | _ => PV_acc cf d n (n - t)
  end.

(** The cash flow of step [t] (from 1) of a row. *)
Definition cash_at (row : list R) (t : nat) : R := nth (t - 1) row 0.

(* ================================================================== *)
(** * price_warrant: constants *)

(** warrant strike price *)
Definition X : R := 11.5.
(** remaining lockout in days *)
Definition lockout : nat := 0.
(** risk-free rate *)
Definition r : R := 0.05.
(** number of paths *)
#[warnings="-abstract-large-number"]
Definition N : nat := 100000.
(** step size = 1 day *)
Definition dt : Q := 1 # 252.
(** barrier counting window *)
Definition window : nat := 30.

(** Python's [int] on a number: truncation towards zero. *)
Definition int (q : Q) : Z := Z.quot (Qnum q) (Zpos (Qden q)).

(** Python's [round] on a number: to the nearest integer, ties to the even
    one.  The source never calls it; the specification does. *)
Definition round (q : Q) : Z :=
  let fl := Qfloor q in
  let frac := (q - inject_Z fl)%Q in
  match (frac ?= 1 # 2)%Q with
  | Lt => fl
  | Gt => (fl + 1)%Z
  | Eq => if Z.even fl then fl else (fl + 1)%Z
  end.

(** [steps = int(T/dt)] *)
Definition num_steps (T : Q) : Z := int (T / dt).

(** The number of steps as an index: the last column of the matrices. *)
Definition last_step (T : Q) : nat := Z.to_nat (num_steps T).

(* ================================================================== *)
(** * price_warrant: the stages, on one path *)

(** Lines 60-69: one row of [S].  [draws] is the row of [draws]. *)
Definition gbm_path (S0 drift vol_step : R) (steps : nat) (draws : list R)
  : list R :=
  let Sp := repeat 0 (steps + 1) in
  let Sp := upd Sp 0 S0 in
  fold_left
    (fun Sp t =>
       upd Sp t (nth (t - 1) Sp 0 * exp (drift + vol_step * nth (t - 1) draws 0)))
    (range 1 (steps + 1)) Sp.

(** [np.sum(a >= level)] on one row. *)
Definition count_ge (level : R) (a : list R) : nat :=
  length (filter (fun x => Rleb level x) a).

(** Lines 73-80: one row of [B18], the counts kept as natural numbers.
    [ramp] is the constant of the comparison [t - lockout < 29].  In the
    second branch [t >= 29], so the slice start [t-window+1] is written
    [t + 1 - window]. *)
Definition barrier_counts_with (ramp lockout steps : nat) (Sp : list R)
  : list nat :=
  fold_left
    (fun B18 t =>
       if (lockout <? t)%nat then
         if (t - lockout <? ramp)%nat then
           upd B18 t (count_ge 18 (slice lockout (t + 1) Sp))
         else
           upd B18 t (count_ge 18 (slice (t + 1 - window) (t + 1) Sp))
       else B18)
    (range 1 (steps + 1)) (repeat 0%nat (steps + 1)).

Definition barrier_counts : nat -> nat -> list R -> list nat :=
  barrier_counts_with 29.

(** The same loop with the comparison [t - lockout < 30]. *)
Definition barrier_counts_lt30 : nat -> nat -> list R -> list nat :=
  barrier_counts_with 30.

(** Lines 83-84: [S[B18[:,t]>=20.0, t+22:] = 0] for [t in range(0,steps-1)],
    on one row. *)
Definition redeem (steps : nat) (B18 : list nat) (Sp : list R) : list R :=
  fold_left
    (fun Sp t => if (20 <=? nth t B18 0%nat)%nat then fill_from (t + 22) 0 Sp else Sp)
    (range 0 (steps - 1)) Sp.

(** Lines 73-84 on one row: the counts, and the prices after redemption. *)
Definition redemption_tracker (lockout steps : nat) (Sp : list R)
  : list nat * list R :=
  let B18 := barrier_counts lockout steps Sp in
  (B18, redeem steps B18 Sp).

(** One path in the exercise stage: its rows of [S], [W] and [SR]. *)
Record path : Type := mkPath {
  prices : list R;
  W : list R;
  SR : list R
}.

(** Lines 88-92. *)
Definition init_path (steps : nat) (Sp : list R) : path :=
  let W := repeat 0 (steps + 1) in
  let W := upd W steps (Rmax (nth steps Sp 0 - X) 0) in
  let SR := repeat 0 (steps + 1) in
  let SR := if Rltb X (nth steps Sp 0) then upd SR steps 1 else SR in
  mkPath Sp W SR.

(** Lines 97-124: the exercise update of step [t], on one path. *)
Definition exercise_step (lockout t : nat) (p : path) : path :=
  if (lockout <? t)%nat then
    let Sp := prices p in
    let exercises := Rltb X (nth t Sp 0) && Reqb (nth (t + 1) Sp 0) 0 in
    let stop_rule := if exercises then 1 else 0 in
    let exercise_payoff := Rmax (nth t Sp 0 - X) 0 in
    let cash_flow := stop_rule * exercise_payoff in
    let W := upd (W p) t cash_flow in
    let SR := upd (SR p) t stop_rule in
    let W := if Reqb (nth t SR 0) 1 then fill_from (t + 1) 0 W else W in
    let SR := if Reqb (nth t SR 0) 1 then fill_from (t + 1) 0 SR else SR in
    mkPath Sp W SR
  else p.

(* ================================================================== *)
(** * price_warrant: all paths *)

(** Lines 127-131: [DCF(W[:,1:], disc)], its mean and standard error. *)
Definition valuation (disc : R) (paths : list path) : result (R * R) :=
  path_values <- DCF (Arr2 (map (fun p => skipn 1 (W p)) paths)) disc ;;
  let w_prc := mean path_values in
  let se := std path_values / sqrt (INR (length path_values)) in
  Ok (w_prc, se).

(** The state of the backward loop: the paths, and [(w_prc, se)] once they
    are bound. *)
Definition loop_state : Type := (list path * option (R * R))%type.

(** Lines 95-131: one iteration of the backward loop. *)
Definition loop_body (lockout : nat) (disc : R) (st : loop_state) (t : nat)
  : result loop_state :=
  let paths := map (exercise_step lockout t) (fst st) in
  v <- valuation disc paths ;;
  Ok (paths, Some v).

Definition backward_pass (lockout steps : nat) (disc : R) (paths : list path)
  : result loop_state :=
  foldM (loop_body lockout disc) (range_down (steps - 1) 0) (paths, None).

(** The backward loop without the valuation. *)
Definition exercise_pass (lockout steps : nat) (paths : list path) : list path :=
  fold_left (fun ps t => map (exercise_step lockout t) ps)
            (range_down (steps - 1) 0) paths.

Section Pricing.
(** The normal deviates drawn after [np.random.seed(1234)], in order. *)
Variable gauss : nat -> R.

(** [np.random.normal(size=(rows, cols))]: filled row by row. *)
Definition normal (rows cols : nat) : list (list R) :=
  map (fun i => map (fun j => gauss (i * cols + j)) (seq 0 cols)) (seq 0 rows).

(** Lines 60-69: the matrix [S]. *)
Definition simulate_paths (S0 vol : R) (steps : nat) : list (list R) :=
  let drift := (r - 0.5 * vol ^ 2) * Q2R dt in
  let vol_step := vol * sqrt (Q2R dt) in
  let draws := normal (N / 2) steps in
  let draws := draws ++ map (map Ropp) draws in
  map (gbm_path S0 drift vol_step steps) draws.

(** Lines 60-92: the paths as the backward loop receives them. *)
Definition prepare_paths (S0 vol : R) (steps : nat) : list path :=
  map (fun Sp => init_path steps (snd (redemption_tracker lockout steps Sp)))
      (simulate_paths S0 vol steps).

Definition price_warrant (S0 : R) (T : Q) (vol : R) : result (R * R) :=
  let steps := num_steps T in
  let disc := exp (- r * Q2R dt) in
  (* np.zeros(shape=(N,steps+1)) *)
  if (steps + 1 <? 0)%Z then Raise ValueError else
  (* S[:,0] = S0 *)
  if (steps + 1 =? 0)%Z then Raise IndexError else
  let steps := Z.to_nat steps in
  st <- backward_pass lockout steps disc (prepare_paths S0 vol steps) ;;
  (* return w_prc, se *)
  match snd st with
  | Some res => Ok res
  | None => Raise UnboundLocalError
  end.

(** The variant of the specification's design note: the valuation is
    computed once, after the backward loop. *)
Definition price_warrant_hoisted (S0 : R) (T : Q) (vol : R) : result (R * R) :=
  let steps := num_steps T in
  let disc := exp (- r * Q2R dt) in
  if (steps + 1 <? 0)%Z then Raise ValueError else
  if (steps + 1 =? 0)%Z then Raise IndexError else
  let steps := Z.to_nat steps in
  valuation disc (exercise_pass lockout steps (prepare_paths S0 vol steps)).
End Pricing.

(** Lines 66-67: the draws and their negations. *)
Definition antithetic_draws (gauss : nat -> R) (steps : nat) : list (list R) :=
  normal gauss (N / 2) steps ++ map (map Ropp) (normal gauss (N / 2) steps).

(** The number of steps with price at least 18 over the [k] steps ending at
    step [t]: the reading of the barrier count in the specification. *)
Definition trailing_count (Sp : list R) (t k : nat) : nat :=
  count_ge 18 (slice (t + 1 - k) (t + 1) Sp).

(** The price that the GBM recurrence gives at step [t]:
    price(t) = price(t-1) exp(drift + vol_step draw(t)). *)
Fixpoint gbm_value (S0 drift vol_step : R) (draws : list R) (t : nat) : R :=
  match t with
  | O => S0
  | S t' =>
      gbm_value S0 drift vol_step draws t'
      * exp (drift + vol_step * nth t' draws 0)
  end.

(** The present value of one row of cash flows, by the recursion. *)
Definition present_value (d : R) (cf : list R) : R :=
  PV (cash_at cf) d (length cf) 0.

(** Mean and standard error of the path values. *)
Definition aggregate (path_values : list R) : R * R :=
  (mean path_values, std path_values / sqrt (INR (length path_values))).

(** What [valuation] computes when [DCF] takes its recursive branch. *)
Definition valuation_of (disc : R) (paths : list path) : R * R :=
  aggregate (map (fun p => present_value disc (skipn 1 (W p))) paths).

(** The backward loop on one path. *)
Definition exercise_path (lockout steps : nat) (p : path) : path :=
  fold_left (fun p t => exercise_step lockout t p) (range_down (steps - 1) 0) p.

(** The stop rule of a path holds at most one 1, at a step from [t] on, and
    no cash flow is left after it. *)
Definition at_most_one_exercise (steps t : nat) (p : path) : Prop :=
  length (SR p) = (steps + 1)%nat
  /\ length (W p) = (steps + 1)%nat
  /\ ((forall u, nth u (SR p) 0 = 0)
      \/ exists k, (t <= k <= steps)%nat
           /\ nth k (SR p) 0 = 1
           /\ (forall u, u <> k -> nth u (SR p) 0 = 0)
           /\ (forall u, (k < u)%nat -> nth u (W p) 0 = 0)).

(** The cash flows [cf], received at steps [t], [t+1], ..., each discounted
    by one factor [d] per step. *)
Fixpoint discounted_from (d : R) (t : nat) (cf : list R) : R :=
  match cf with
  | [] => 0
  | c :: tl => d ^ t * c + discounted_from d (S t) tl
  end.

(** The sum over t = 1 .. n of d^t cf(t). *)
Definition discounted_sum (d : R) (cf : list R) : R := discounted_from d 1 cf.

(** The same sum, nested: c0 + d (c1 + d (c2 + ...)). *)
Fixpoint nested_sum (d : R) (cf : list R) : R :=
  match cf with
  | [] => 0
  | c :: tl => c + d * nested_sum d tl
  end.

(** The step from which a path is redeemed: 22 steps after the first step
    of the redemption loop whose count is at least 20. *)
Definition redeemed_at (steps : nat) (B18 : list nat) : option nat :=
  match find (fun t => (20 <=? nth t B18 0%nat)%nat) (range 0 (steps - 1)) with
  | Some t => Some (t + 22)%nat
  | None => None
  end.

(** The exercise test of line 101 on one path. *)
Definition exercises_at (Sp : list R) (t : nat) : bool :=
  Rltb X (nth t Sp 0) && Reqb (nth (t + 1) Sp 0) 0.

(** The step at which a path ends up exercised: the first step after the
    lockout and before maturity that passes the exercise test, and otherwise
    maturity when the path is in the money there.  [from] is the first step
    looked at. *)
Definition exercised_from (lockout steps from : nat) (Sp : list R) : option nat :=
  match find (fun t => (lockout <? t)%nat && exercises_at Sp t)
             (seq from (steps - from)) with
  | Some t => Some t
  | None => if Rltb X (nth steps Sp 0) then Some steps else None
  end.

Definition exercised_at (lockout steps : nat) (Sp : list R) : option nat :=
  exercised_from lockout steps 1 Sp.

(** A row of [n] zeros but for [v] at index [k]. *)
Definition one_hot (n k : nat) (v : R) : list R := upd (repeat 0 n) k v.

(** The path that is exercised at [e] (or never): its rows of [W] and [SR]. *)
Definition exercised_path (steps : nat) (Sp : list R) (e : option nat) : path :=
  match e with
  | Some t => mkPath Sp (one_hot (steps + 1) t (nth t Sp 0 - X))
                     (one_hot (steps + 1) t 1)
  | None => mkPath Sp (repeat 0 (steps + 1)) (repeat 0 (steps + 1))
  end.

(** The discounted payoff of a path: the intrinsic value at the step where
    it is exercised. *)
Definition path_payoff (disc : R) (lockout steps : nat) (Sp : list R) : R :=
  match exercised_at lockout steps Sp with
  | Some t => disc ^ t * (nth t Sp 0 - X)
  | None => 0
  end.

(** A cash-flow matrix with [n] columns. *)
Definition has_columns (n : nat) (m : list (list R)) : Prop :=
  Forall (fun row => length row = n) m.

(* ================================================================== *)
(** * Lemmas on arrays *)

Section ArrayLemmas.
Context {A : Type}.
Implicit Types (l : list A) (i j k : nat) (v d : A).

Lemma upd_length l i v : length (upd l i v) = length l.
Proof.
  revert i; induction l as [|a l IH]; intros [|i]; simpl; auto.
Qed.

Lemma nth_upd_eq l i v d : (i < length l)%nat -> nth i (upd l i v) d = v.
Proof.
  revert i; induction l as [|a l IH]; intros [|i] Hi; simpl in *;
    try lia; auto.
  apply IH; lia.
Qed.

Lemma nth_upd_neq l i j v d : i <> j -> nth j (upd l i v) d = nth j l d.
Proof.
  revert i j; induction l as [|a l IH]; intros [|i] [|j] Hij; simpl;
    try congruence; auto.
Qed.

Lemma nth_upd l i j v d :
  (i < length l)%nat ->
  nth j (upd l i v) d = if (j =? i)%nat then v else nth j l d.
Proof.
  intros Hi. destruct (Nat.eqb_spec j i) as [->|Hne].
  - now apply nth_upd_eq.
  - apply nth_upd_neq; congruence.
Qed.

Lemma upd_same l i d : upd l i (nth i l d) = l.
Proof.
  revert i; induction l as [|a l IH]; intros [|i]; simpl; auto.
  now rewrite IH.
Qed.

Lemma fill_from_length k v l : length (fill_from k v l) = length l.
Proof.
  unfold fill_from. rewrite length_app, length_firstn, repeat_length. lia.
Qed.

Lemma nth_fill_from k v l j :
  nth j (fill_from k v l) v = if (j <? k)%nat then nth j l v else v.
Proof.
  unfold fill_from. destruct (Nat.ltb_spec j k) as [Hlt|Hge].
  - destruct (Nat.lt_ge_cases j (length l)) as [Hj|Hj].
    + rewrite app_nth1 by (rewrite length_firstn; lia).
      now rewrite nth_firstn, (proj2 (Nat.ltb_lt j k) Hlt).
    + rewrite (nth_overflow l) by lia.
      apply nth_overflow.
      rewrite length_app, length_firstn, repeat_length. lia.
  - destruct (Nat.lt_ge_cases j (length l)) as [Hj|Hj].
    + rewrite app_nth2 by (rewrite length_firstn; lia).
      apply nth_repeat.
    + apply nth_overflow.
      rewrite length_app, length_firstn, repeat_length. lia.
Qed.
End ArrayLemmas.

Lemma range_down_S hi : range_down (S hi) 0 = S hi :: range_down hi 0.
Proof.
  unfold range_down. rewrite !Nat.sub_0_r. simpl (0 + 1)%nat.
  rewrite seq_S, rev_app_distr. simpl. reflexivity.
Qed.

Lemma range_down_0 : range_down 0 0 = [].
Proof. reflexivity. Qed.

Lemma in_range_down t hi : In t (range_down hi 0) <-> (1 <= t <= hi)%nat.
Proof.
  unfold range_down. rewrite <- in_rev, in_seq. lia.
Qed.

Lemma range_S lo len : range lo (lo + S len) = range lo (lo + len) ++ [(lo + len)%nat].
Proof.
  unfold range. replace (lo + S len - lo)%nat with (S len) by lia.
  replace (lo + len - lo)%nat with len by lia. apply seq_S.
Qed.

Lemma in_range t lo hi : In t (range lo hi) <-> (lo <= t < hi)%nat.
Proof. unfold range. rewrite in_seq. lia. Qed.

(** ** The result monad *)

Lemma mapM_Ok {A B} (f : A -> result B) (g : A -> B) (l : list A) :
  Forall (fun a => f a = Ok (g a)) l -> mapM f l = Ok (map g l).
Proof.
  induction 1 as [|a l Ha _ IH]; simpl; auto.
  now rewrite Ha, IH.
Qed.

(* ================================================================== *)
(** * DCF: the loop computes the backward recursion *)

Section DCFLoop.
Variables (d : R) (cf : list R).
Let n := length cf.

(** The body of the loop of [DCF]. *)
Let body (out : list R) (t : nat) : list R :=
  upd out t (d * nth (t + 1) out 0 + nth (t - 1) cf 0).

(** Column [u] of [dcf_out] holds PV(u + 1). *)
Let column (u : nat) : R := PV_acc (cash_at cf) d n (n - 1 - u).

Lemma column_last : (2 <= n)%nat ->
  column (n - 1) = d * nth (n - 1) cf 0 + nth (n - 2) cf 0.
Proof.
  intros Hn. unfold column, cash_at.
  replace (n - 1 - (n - 1))%nat with 0%nat by lia. simpl.
  now replace (n - 1 - 1)%nat with (n - 2)%nat by lia.
Qed.

Lemma column_step u : (1 <= u)%nat -> (u + 1 < n)%nat ->
  column u = d * column (u + 1) + nth (u - 1) cf 0.
Proof.
  intros Hu Hn. unfold column, cash_at.
  replace (n - 1 - u)%nat with (S (n - 1 - (u + 1))) by lia.
  cbn [PV_acc]. do 2 f_equal. lia.
Qed.

Lemma DCF_loop_length k out :
  length (fold_left body (range_down k 0) out) = length out.
Proof.
  revert out; induction k as [|k IH]; intros out; [reflexivity|].
  rewrite range_down_S. simpl. rewrite IH. apply upd_length.
Qed.

Lemma DCF_loop_columns k out :
  length out = n -> (k + 1 < n)%nat ->
  (forall u, (k < u < n)%nat -> nth u out 0 = column u) ->
  forall u, (1 <= u < n)%nat ->
    nth u (fold_left body (range_down k 0) out) 0 = column u.
Proof.
  revert out; induction k as [|k IH]; intros out Hlen Hk Hout u Hu.
  - simpl. apply Hout; lia.
  - rewrite range_down_S. simpl. apply IH; try lia.
    + unfold body. now rewrite upd_length.
    + intros w Hw. unfold body. rewrite nth_upd by lia.
      destruct (Nat.eqb_spec w (S k)) as [->|Hne].
      * rewrite Hout by lia. rewrite (column_step (S k)) by lia.
        reflexivity.
      * apply Hout; lia.
Qed.

Lemma DCF_row_PV : (2 <= n)%nat ->
  DCF_row d cf = Ok (PV (cash_at cf) d n 0).
Proof.
  intros Hn. unfold DCF_row. fold n.
  destruct (Nat.ltb_spec 1 n) as [_|]; [|lia].
  f_equal.
  set (out0 := upd (repeat 0 n) (n - 1) _).
  assert (Hlen0 : length out0 = n)
    by (unfold out0; now rewrite upd_length, repeat_length).
  assert (H0 : forall u, (n - 2 < u < n)%nat -> nth u out0 0 = column u).
  { intros u Hu. replace u with (n - 1)%nat by lia.
    unfold out0. rewrite nth_upd_eq by (rewrite repeat_length; lia).
    now rewrite column_last. }
  set (out1 := if (2 <? n)%nat then _ else out0).
  assert (Hlen1 : length out1 = n).
  { unfold out1. destruct (2 <? n)%nat; auto.
    fold body. now rewrite DCF_loop_length. }
  assert (H1 : nth 1 out1 0 = column 1).
  { unfold out1. destruct (Nat.ltb_spec 2 n) as [H2|H2].
    - fold body. apply DCF_loop_columns; auto; lia.
    - apply H0; lia. }
  rewrite nth_upd_eq by lia. rewrite H1.
  unfold PV, column. now replace (n - 1 - 1)%nat with (n - 2)%nat by lia.
Qed.
End DCFLoop.

(** C1.  On a cash-flow matrix with [n >= 2] columns [DCF] returns, for each
    path, the value PV(0) of the backward recursion of the specification:
    PV(n) = d cf(n) + cf(n-1), PV(t) = d PV(t+1) + cf(t-1) for t from n-1
    down to 2, and PV(0) = d PV(1), where PV(1) names the last accumulated
    value.  On rows [5, 0, 10] with d = 0.99 the result is 14.65299 (exactly,
    hence within 1e-9). *)
Theorem C1_DCF_backward_recursion :
  forall (cf_in : list (list R)) (d : R) (n : nat),
    (2 <= n)%nat ->
    has_columns n cf_in ->
    DCF (Arr2 cf_in) d = Ok (map (fun row => PV (cash_at row) d n 0) cf_in)
    /\ (forall cf, PV cf d n n = d * cf n + cf (n - 1)%nat)
    /\ (forall cf t, (2 <= t <= n - 1)%nat ->
          PV cf d n t = d * PV cf d n (t + 1) + cf (t - 1)%nat)
    /\ (forall cf, PV cf d n 0 = d * PV cf d n 1)
    /\ (forall cf, PV cf d n 1 = PV cf d n 2)
    /\ (forall row, row = [5; 0; 10] -> d = 0.99 -> n = 3%nat ->
          PV (cash_at row) d n 0 = 14.65299
          /\ Rabs (PV (cash_at row) d n 0 - 14.65299) <= 1e-9).
Proof.
  intros cf_in d n Hn Hcols. repeat split.
  - unfold DCF. apply mapM_Ok.
    eapply Forall_impl; [|exact Hcols].
    intros row Hrow. simpl in Hrow. rewrite <- Hrow.
    apply DCF_row_PV. lia.
  - intros cf. unfold PV.
    destruct n as [|[|m]]; try lia.
    now rewrite Nat.sub_diag.
  - intros cf t Ht. unfold PV.
    destruct t as [|[|t']]; try lia.
    replace (S (S t') + 1)%nat with (S (S (S t'))) by lia.
    replace (n - S (S t'))%nat with (S (n - S (S (S t')))) by lia.
    cbn [PV_acc]. do 2 f_equal. lia.
  - subst. unfold PV, cash_at. simpl. lra.
  - subst. unfold PV, cash_at. simpl.
    match goal with |- Rabs ?e <= _ => replace e with 0 by lra end.
    rewrite Rabs_R0. lra.
Qed.

Lemma C1_DCF_witness :
  DCF (Arr2 [[5; 0; 10]]) 0.99 = Ok [PV (cash_at [5; 0; 10]) 0.99 3 0]
  /\ PV (cash_at [5; 0; 10]) 0.99 3 0 = 14.65299.
Proof.
  pose proof (C1_DCF_backward_recursion [[5; 0; 10]] 0.99 3
                ltac:(lia) ltac:(repeat constructor)) as [H1 [_ [_ [_ [_ H6]]]]].
  split.
  - exact H1.
  - exact (proj1 (H6 [5; 0; 10] eq_refl eq_refl eq_refl)).
Defined.

(* ================================================================== *)
(** * Real comparisons *)

Lemma Rleb_true x y : x <= y -> Rleb x y = true.
Proof. intros H. unfold Rleb. destruct (Rle_dec x y); [reflexivity|contradiction]. Qed.


Lemma Rltb_true x y : x < y -> Rltb x y = true.
Proof. intros H. unfold Rltb. destruct (Rlt_dec x y); [reflexivity|contradiction]. Qed.

Lemma Rltb_false x y : y <= x -> Rltb x y = false.
Proof. intros H. unfold Rltb. destruct (Rlt_dec x y); [lra|reflexivity]. Qed.

Lemma Reqb_true x y : x = y -> Reqb x y = true.
Proof. intros H. unfold Reqb. destruct (Req_dec_T x y); [reflexivity|contradiction]. Qed.

Lemma Reqb_false x y : x <> y -> Reqb x y = false.
Proof. intros H. unfold Reqb. destruct (Req_dec_T x y); [contradiction|reflexivity]. Qed.

Lemma count_ge_all level a :
  Forall (fun x => level <= x) a -> count_ge level a = length a.
Proof.
  unfold count_ge. induction 1 as [|x a Hx _ IH]; simpl; auto.
  rewrite (Rleb_true _ _ Hx). simpl. now rewrite IH.
Qed.

(* ================================================================== *)
(** * The barrier counts *)

(** A loop that assigns [f t] at index [t] for the [t] that pass [c]. *)
Lemma fold_upd_length {A} (c : nat -> bool) (f : nat -> A) l (B : list A) :
  length (fold_left (fun B t => if c t then upd B t (f t) else B) l B) = length B.
Proof.
  revert B; induction l as [|t l IH]; intros B; simpl; auto.
  rewrite IH. destruct (c t); auto using upd_length.
Qed.

Lemma fold_upd_nth {A} (c : nat -> bool) (f : nat -> A) l (B : list A) u d :
  (forall t, In t l -> (t < length B)%nat) ->
  nth u (fold_left (fun B t => if c t then upd B t (f t) else B) l B) d
  = if existsb (Nat.eqb u) l && c u then f u else nth u B d.
Proof.
  revert B; induction l as [|t l IH]; intros B Hin; simpl; auto.
  rewrite IH.
  2:{ intros t' Ht'. destruct (c t); [rewrite upd_length|]; apply Hin; now right. }
  destruct (existsb (Nat.eqb u) l && c u) eqn:E.
  - apply andb_prop in E as [-> ->]. now rewrite orb_true_r.
  - destruct (Nat.eqb_spec u t) as [->|Hne]; simpl.
    + destruct (c t) eqn:Ec.
      * rewrite nth_upd_eq; auto. apply Hin; now left.
      * now rewrite andb_false_r in *.
    + rewrite E. destruct (c t); auto.
      apply nth_upd_neq; congruence.
Qed.

Lemma barrier_counts_with_body ramp lk Sp :
  forall B18 t,
    (if (lk <? t)%nat then
       if (t - lk <? ramp)%nat then
         upd B18 t (count_ge 18 (slice lk (t + 1) Sp))
       else upd B18 t (count_ge 18 (slice (t + 1 - window) (t + 1) Sp))
     else B18)
    = if (lk <? t)%nat then
        upd B18 t (if (t - lk <? ramp)%nat
                   then count_ge 18 (slice lk (t + 1) Sp)
                   else count_ge 18 (slice (t + 1 - window) (t + 1) Sp))
      else B18.
Proof. intros B18 t. destruct (lk <? t)%nat, (t - lk <? ramp)%nat; reflexivity. Qed.

Lemma fold_left_ext {A B} (f g : A -> B -> A) l a :
  (forall a b, f a b = g a b) -> fold_left f l a = fold_left g l a.
Proof.
  intros H. revert a; induction l as [|b l IH]; intros a; simpl; auto.
  now rewrite H, IH.
Qed.

Lemma barrier_counts_with_length ramp lk steps Sp :
  length (barrier_counts_with ramp lk steps Sp) = (steps + 1)%nat.
Proof.
  unfold barrier_counts_with.
  rewrite (fold_left_ext _ _ _ _ (barrier_counts_with_body ramp lk Sp)).
  rewrite (fold_upd_length (fun t => (lk <? t)%nat)). apply repeat_length.
Qed.

Lemma barrier_counts_with_nth ramp lk steps Sp t :
  (lk < t <= steps)%nat ->
  nth t (barrier_counts_with ramp lk steps Sp) 0%nat
  = if (t - lk <? ramp)%nat
    then count_ge 18 (slice lk (t + 1) Sp)
    else count_ge 18 (slice (t + 1 - window) (t + 1) Sp).
Proof.
  intros Ht. unfold barrier_counts_with.
  rewrite (fold_left_ext _ _ _ _ (barrier_counts_with_body ramp lk Sp)).
  rewrite (fold_upd_nth (fun t => (lk <? t)%nat)).
  - replace (existsb (Nat.eqb t) (range 1 (steps + 1))) with true.
    + now rewrite (proj2 (Nat.ltb_lt lk t)) by lia.
    + symmetry. apply existsb_exists. exists t. split.
      * apply in_range; lia.
      * apply Nat.eqb_refl.
  - intros t' Ht'. apply in_range in Ht'. rewrite repeat_length. lia.
Qed.

(** Before and at the lockout nothing is counted. *)
Lemma barrier_counts_with_nth_lockout ramp lk steps Sp t :
  (t <= lk)%nat -> nth t (barrier_counts_with ramp lk steps Sp) 0%nat = 0%nat.
Proof.
  intros Ht. unfold barrier_counts_with.
  rewrite (fold_left_ext _ _ _ _ (barrier_counts_with_body ramp lk Sp)).
  rewrite (fold_upd_nth (fun t => (lk <? t)%nat)).
  - rewrite (proj2 (Nat.ltb_ge lk t)) by lia. rewrite andb_false_r.
    apply nth_repeat.
  - intros t' Ht'. apply in_range in Ht'. rewrite repeat_length. lia.
Qed.

(** C10.  With the comparison [t - lockout < 30] in place of
    [t - lockout < 29] the barrier-count matrix is the same, for every price
    matrix, every lockout and every number of steps: at [t - lockout = 29]
    both slices are the columns [lockout .. t]. *)
Theorem C10_ramp_29_or_30_same_counts :
  forall (lk steps : nat) (prices_matrix : list (list R)),
    map (barrier_counts_lt30 lk steps) prices_matrix
    = map (barrier_counts lk steps) prices_matrix.
Proof.
  intros lk steps m. apply map_ext. intros Sp.
  unfold barrier_counts_lt30, barrier_counts, barrier_counts_with.
  apply fold_left_ext. intros B18 t.
  destruct (Nat.ltb_spec lk t) as [Hlt|]; [|reflexivity].
  destruct (Nat.ltb_spec (t - lk) 30) as [H30|H30];
    destruct (Nat.ltb_spec (t - lk) 29) as [H29|H29];
    try reflexivity; try lia.
  unfold window. replace (t + 1 - 30)%nat with lk by lia. reflexivity.
Qed.

(** C5, as the code has it.  For every step [t > lockout] the barrier count
    [B18[:, t]] is the number of steps with price at least 18 among the
    columns [max(lockout, t-29) .. t]: a trailing window of
    [min(30, t - lockout + 1)] steps ending at [t], which includes the
    column [lockout] itself during the ramp-up. *)
Theorem C5_barrier_count_window :
  forall (lk steps : nat) (Sp : list R) (t : nat),
    (lk < t <= steps)%nat ->
    nth t (barrier_counts lk steps Sp) 0%nat
    = trailing_count Sp t (Nat.min 30 (t - lk + 1)).
Proof.
  intros lk steps Sp t Ht. unfold barrier_counts.
  rewrite barrier_counts_with_nth by exact Ht.
  unfold trailing_count, window.
  destruct (Nat.ltb_spec (t - lk) 29) as [H29|H29].
  - rewrite Nat.min_r by lia. do 2 f_equal. lia.
  - rewrite Nat.min_l by lia. reflexivity.
Qed.

Lemma C5_barrier_count_window_witness :
  nth 1 (barrier_counts 0 1 [20; 21]) 0%nat
  = trailing_count [20; 21] 1 (Nat.min 30 (1 - 0 + 1)).
Proof.
  apply (C5_barrier_count_window 0 1 [20; 21] 1). lia.
Defined.

(** C5 as stated fails: with lockout 0 and prices 20, 21 the count at step 1
    is 2 (columns 0 and 1), while a window of [min(30, 1 - 0) = 1] step
    ending at step 1 holds one price. *)
Lemma C5_counterexample :
  nth 1 (barrier_counts 0 1 [20; 21]) 0%nat = 2%nat
  /\ trailing_count [20; 21] 1 (Nat.min 30 (1 - 0)) = 1%nat.
Proof.
  split.
  - unfold barrier_counts. rewrite barrier_counts_with_nth by lia.
    simpl. apply (count_ge_all 18 [20; 21]).
    repeat constructor; lra.
  - unfold trailing_count. simpl. apply (count_ge_all 18 [21]).
    repeat constructor; lra.
Qed.

(* ================================================================== *)
(** * Forced redemption *)

Lemma redeem_loop_length l (B18 : list nat) (Sp : list R) :
  length (fold_left
            (fun Sp t => if (20 <=? nth t B18 0%nat)%nat
                         then fill_from (t + 22) 0 Sp else Sp) l Sp)
  = length Sp.
Proof.
  revert Sp; induction l as [|t l IH]; intros Sp; cbn [fold_left existsb]; auto.
  rewrite IH. destruct (20 <=? nth t B18 0%nat)%nat;
    [apply fill_from_length | reflexivity].
Qed.

(** An entry is zeroed when some step of the loop met the threshold at least
    22 steps earlier, and is otherwise left as it was. *)
Lemma redeem_loop_nth l (B18 : list nat) (Sp : list R) u :
  nth u (fold_left
           (fun Sp t => if (20 <=? nth t B18 0%nat)%nat
                        then fill_from (t + 22) 0 Sp else Sp) l Sp) 0
  = if existsb (fun t => (20 <=? nth t B18 0%nat)%nat && (t + 22 <=? u)%nat) l
    then 0 else nth u Sp 0.
Proof.
  revert Sp; induction l as [|t l IH]; intros Sp; cbn [fold_left existsb]; auto.
  rewrite IH.
  destruct (existsb _ l); [now rewrite orb_true_r|].
  rewrite orb_false_r.
  destruct (20 <=? nth t B18 0%nat)%nat; cbn [andb orb]; auto.
  rewrite nth_fill_from.
  destruct (Nat.ltb_spec u (t + 22)), (Nat.leb_spec (t + 22) u);
    try reflexivity; lia.
Qed.

Lemma redeem_length steps B18 Sp : length (redeem steps B18 Sp) = length Sp.
Proof. apply redeem_loop_length. Qed.


Lemma redeem_zero_from steps B18 Sp t u :
  (t < steps - 1)%nat -> (20 <= nth t B18 0)%nat -> (t + 22 <= u)%nat ->
  nth u (redeem steps B18 Sp) 0 = 0.
Proof.
  intros Ht HB Hu. unfold redeem. rewrite redeem_loop_nth.
  replace (existsb _ _) with true; [reflexivity|].
  symmetry. apply existsb_exists. exists t. split.
  - apply in_range; lia.
  - apply andb_true_intro. split; apply Nat.leb_le; lia.
Qed.



(* ================================================================== *)
(** * The simulated paths *)

Section GBM.
Variables (S0 drift vol_step : R) (steps : nat) (draws : list R).

Let body (Sp : list R) (t : nat) : list R :=
  upd Sp t (nth (t - 1) Sp 0 * exp (drift + vol_step * nth (t - 1) draws 0)).

Let start : list R := upd (repeat 0 (steps + 1)) 0 S0.

Lemma gbm_loop k :
  (k <= steps)%nat ->
  length (fold_left body (seq 1 k) start) = (steps + 1)%nat
  /\ forall u, (u <= k)%nat ->
       nth u (fold_left body (seq 1 k) start) 0
       = gbm_value S0 drift vol_step draws u.
Proof.
  induction k as [|k IH]; intros Hk.
  - simpl. unfold start. rewrite upd_length, repeat_length. split; auto.
    intros u Hu. replace u with 0%nat by lia.
    rewrite nth_upd_eq by (rewrite repeat_length; lia). reflexivity.
  - destruct IH as [Hlen Hnth]; [lia|].
    rewrite seq_S, fold_left_app. cbn [fold_left].
    set (Sk := fold_left body (seq 1 k) start) in *.
    unfold body. rewrite upd_length. split; auto.
    intros u Hu. rewrite nth_upd by lia.
    replace (1 + k - 1)%nat with k by lia.
    destruct (Nat.eqb_spec u (1 + k)) as [->|Hne].
    + rewrite Hnth by lia. reflexivity.
    + apply Hnth; lia.
Qed.

Lemma gbm_path_length :
  length (gbm_path S0 drift vol_step steps draws) = (steps + 1)%nat.
Proof.
  unfold gbm_path, range. replace (steps + 1 - 1)%nat with steps by lia.
  apply (gbm_loop steps). lia.
Qed.

Lemma gbm_path_nth t :
  (t <= steps)%nat ->
  nth t (gbm_path S0 drift vol_step steps draws) 0
  = gbm_value S0 drift vol_step draws t.
Proof.
  intros Ht. unfold gbm_path, range.
  replace (steps + 1 - 1)%nat with steps by lia.
  now apply (gbm_loop steps).
Qed.

End GBM.


(** [N] is never unfolded by the proofs below. *)
Opaque N.


Lemma half_N_pos : (0 < N / 2)%nat.
Proof. apply Nat.ltb_lt. vm_compute. reflexivity. Qed.




(* ================================================================== *)
(** * The exercise stage on one path *)

Lemma sum_all_zero l : (forall u, nth u l 0 = 0) -> sum l = 0.
Proof.
  induction l as [|a l IH]; intros H; simpl; [reflexivity|].
  rewrite IH.
  - pose proof (H 0%nat) as H0. simpl in H0. lra.
  - intros u. exact (H (S u)).
Qed.

Lemma sum_one_hot l k :
  nth k l 0 = 1 -> (forall u, u <> k -> nth u l 0 = 0) -> sum l = 1.
Proof.
  revert k; induction l as [|a l IH]; intros k Hk Hz.
  - destruct k; simpl in Hk; lra.
  - destruct k as [|k]; simpl in *.
    + rewrite sum_all_zero; [lra|].
      intros u. apply (Hz (S u)). discriminate.
    + rewrite (IH k Hk).
      * pose proof (Hz 0%nat ltac:(discriminate)) as H0. simpl in H0. lra.
      * intros u Hu. apply (Hz (S u)). congruence.
Qed.

Lemma nth_zeros n u : nth u (repeat 0 n) 0 = 0.
Proof. apply nth_repeat. Qed.

Section Exercise.
Variables (lk steps : nat).

Lemma at_most_one_exercise_weaken t t' p :
  (t' <= t)%nat ->
  at_most_one_exercise steps t p -> at_most_one_exercise steps t' p.
Proof.
  intros Ht (HSR & HW & [Hz|(k & Hk & H1 & H0 & HW0)]).
  - repeat split; auto.
  - repeat split; auto. right. exists k. repeat split; auto; lia.
Qed.

Lemma init_path_at_most_one Sp :
  at_most_one_exercise steps steps (init_path steps Sp).
Proof.
  unfold init_path, at_most_one_exercise. cbn [SR W].
  split; [|split].
  - destruct (Rltb X (nth steps Sp 0));
      [rewrite upd_length|]; apply repeat_length.
  - rewrite upd_length. apply repeat_length.
  - destruct (Rltb X (nth steps Sp 0)).
    + right. exists steps. repeat split; try lia.
      * apply nth_upd_eq. rewrite repeat_length. lia.
      * intros u Hu. rewrite nth_upd_neq by congruence. apply nth_zeros.
      * intros u Hu. apply nth_overflow.
        rewrite upd_length, repeat_length. lia.
    + left. apply nth_zeros.
Qed.

Lemma exercise_step_W_length t p :
  length (W (exercise_step lk t p)) = length (W p).
Proof.
  unfold exercise_step. destruct (lk <? t)%nat; [|reflexivity].
  cbn [W]. destruct (Reqb _ 1); [rewrite fill_from_length|];
    apply upd_length.
Qed.

Lemma exercise_step_prices t p :
  prices (exercise_step lk t p) = prices p.
Proof.
  unfold exercise_step. destruct (lk <? t)%nat; reflexivity.
Qed.

Lemma exercise_step_at_most_one t p :
  (1 <= t < steps)%nat ->
  at_most_one_exercise steps (t + 1) p ->
  at_most_one_exercise steps t (exercise_step lk t p).
Proof.
  intros Ht Hp.
  assert (Hlow : forall u, (u <= t)%nat -> nth u (SR p) 0 = 0).
  { destruct Hp as (_ & _ & [Hz|(k & Hk & _ & H0 & _)]); intros u Hu.
    - apply Hz.
    - apply H0. lia. }
  unfold exercise_step. destruct (lk <? t)%nat.
  2:{ apply at_most_one_exercise_weaken with (t := (t + 1)%nat); auto; lia. }
  destruct Hp as (HSR & HW & Hcase).
  set (Sp := prices p).
  destruct (Rltb X (nth t Sp 0) && Reqb (nth (t + 1) Sp 0) 0).
  - (* exercise at t *)
    rewrite nth_upd_eq by lia. rewrite Reqb_true by reflexivity.
    unfold at_most_one_exercise. cbn [SR W].
    rewrite !fill_from_length, !upd_length. repeat split; auto.
    right. exists t. repeat split; try lia.
    + rewrite nth_fill_from. rewrite (proj2 (Nat.ltb_lt t (t + 1))) by lia.
      apply nth_upd_eq. lia.
    + intros u Hu. rewrite nth_fill_from.
      destruct (Nat.ltb_spec u (t + 1)); [|reflexivity].
      rewrite nth_upd_neq by congruence. apply Hlow. lia.
    + intros u Hu. rewrite nth_fill_from.
      now rewrite (proj2 (Nat.ltb_ge u (t + 1))) by lia.
  - (* no exercise at t *)
    rewrite nth_upd_eq by lia. rewrite Reqb_false by lra.
    unfold at_most_one_exercise. cbn [SR W].
    rewrite !upd_length. repeat split; auto.
    assert (Hsame : forall u, nth u (upd (SR p) t 0) 0 = nth u (SR p) 0).
    { intros u. rewrite nth_upd by lia.
      destruct (Nat.eqb_spec u t) as [->|]; auto.
      symmetry. apply Hlow. lia. }
    destruct Hcase as [Hz|(k & Hk & H1 & H0 & HW0)].
    + left. intros u. rewrite Hsame. apply Hz.
    + right. exists k. repeat split; try lia.
      * now rewrite Hsame.
      * intros u Hu. rewrite Hsame. now apply H0.
      * intros u Hu. rewrite nth_upd_neq by lia. now apply HW0.
Qed.

Lemma exercise_loop_at_most_one k :
  (k < steps)%nat ->
  forall p, at_most_one_exercise steps (k + 1) p ->
    at_most_one_exercise steps 0
      (fold_left (fun p t => exercise_step lk t p) (range_down k 0) p).
Proof.
  induction k as [|k IH]; intros Hk p Hp.
  - simpl. apply at_most_one_exercise_weaken with (t := 1%nat); auto.
  - rewrite range_down_S. cbn [fold_left]. apply IH; [lia|].
    replace (k + 1)%nat with (S k) by lia.
    apply exercise_step_at_most_one; [lia|exact Hp].
Qed.

Lemma exercise_path_at_most_one Sp :
  at_most_one_exercise steps 0 (exercise_path lk steps (init_path steps Sp)).
Proof.
  unfold exercise_path. pose proof (init_path_at_most_one Sp) as Hinit.
  destruct (Nat.eq_dec steps 0) as [E|E].
  - replace (steps - 1)%nat with 0%nat by lia. simpl.
    apply at_most_one_exercise_weaken with (t := steps); auto; lia.
  - apply exercise_loop_at_most_one; [lia|].
    now replace (steps - 1 + 1)%nat with steps by lia.
Qed.

Lemma exercise_path_W_length p :
  length (W (exercise_path lk steps p)) = length (W p).
Proof.
  unfold exercise_path. revert p.
  induction (range_down (steps - 1) 0) as [|t l IH]; intros p; simpl; auto.
  rewrite IH. apply exercise_step_W_length.
Qed.
End Exercise.

Lemma at_most_one_exercise_sum steps t p :
  at_most_one_exercise steps t p ->
  (sum (SR p) = 0 \/ sum (SR p) = 1)
  /\ sum (SR p) <= 1
  /\ (forall k, nth k (SR p) 0 = 1 ->
        forall u, (k < u)%nat -> nth u (SR p) 0 = 0 /\ nth u (W p) 0 = 0).
Proof.
  intros (_ & _ & [Hz|(k & Hk & H1 & H0 & HW0)]).
  - rewrite (sum_all_zero _ Hz). split; [now left|]. split; [lra|].
    intros j Hj. rewrite Hz in Hj. lra.
  - rewrite (sum_one_hot _ k H1 H0). split; [now right|]. split; [lra|].
    intros j Hj u Hu.
    assert (j = k) as ->.
    { destruct (Nat.eq_dec j k); auto. rewrite H0 in Hj by auto. lra. }
    split; [apply H0; lia | apply HW0; lia].
Qed.

(* ================================================================== *)
(** * The backward loop on all paths *)

Lemma fold_left_map_commute {A} (f : nat -> A -> A) l (ps : list A) :
  fold_left (fun ps t => map (f t) ps) l ps
  = map (fun p => fold_left (fun p t => f t p) l p) ps.
Proof.
  revert ps; induction l as [|t l IH]; intros ps; cbn [fold_left].
  - symmetry. apply map_id.
  - rewrite IH, map_map. reflexivity.
Qed.

Lemma exercise_pass_paths lk steps ps :
  exercise_pass lk steps ps = map (exercise_path lk steps) ps.
Proof. apply (fold_left_map_commute (exercise_step lk)). Qed.

Lemma exercise_pass_W_length lk steps n ps :
  Forall (fun p => length (W p) = n) ps ->
  Forall (fun p => length (W p) = n) (exercise_pass lk steps ps).
Proof.
  intros H. rewrite exercise_pass_paths. apply Forall_map.
  eapply Forall_impl; [|exact H]. intros p Hp. cbn beta.
  now rewrite exercise_path_W_length.
Qed.

Lemma valuation_Ok disc steps ps :
  (2 <= steps)%nat ->
  Forall (fun p => length (W p) = (steps + 1)%nat) ps ->
  valuation disc ps = Ok (valuation_of disc ps).
Proof.
  intros Hs Hps. unfold valuation, DCF.
  rewrite (mapM_Ok _ (present_value disc)).
  - cbn [bind]. rewrite map_map. reflexivity.
  - apply Forall_map. eapply Forall_impl; [|exact Hps].
    intros p Hp. cbn beta in *. apply DCF_row_PV. rewrite length_skipn, Hp. lia.
Qed.

Section BackwardLoop.
Variables (lk steps : nat) (disc : R).
Hypothesis Hsteps : (2 <= steps)%nat.

Let full (ps : list path) : Prop :=
  Forall (fun p => length (W p) = (steps + 1)%nat) ps.

Lemma step_full t ps : full ps -> full (map (exercise_step lk t) ps).
Proof.
  intros H. apply Forall_map. eapply Forall_impl; [|exact H].
  intros p Hp. cbn beta. now rewrite exercise_step_W_length.
Qed.

Lemma loop_body_Ok ps o t :
  full ps ->
  loop_body lk disc (ps, o) t
  = Ok (map (exercise_step lk t) ps,
        Some (valuation_of disc (map (exercise_step lk t) ps))).
Proof.
  intros H. unfold loop_body. cbn [fst].
  rewrite (valuation_Ok disc steps _ Hsteps (step_full t ps H)).
  reflexivity.
Qed.

Lemma backward_loop l : forall ps o,
  full ps ->
  foldM (loop_body lk disc) l (ps, o)
  = Ok (fold_left (fun ps t => map (exercise_step lk t) ps) l ps,
        match l with
        | [] => o
        | _ => Some (valuation_of disc
                       (fold_left (fun ps t => map (exercise_step lk t) ps) l ps))
        end).
Proof.
  induction l as [|t l IH]; intros ps o H; [reflexivity|].
  cbn [foldM fold_left]. rewrite loop_body_Ok by exact H. cbn [bind].
  rewrite IH by (apply step_full; exact H).
  destruct l; reflexivity.
Qed.

Lemma backward_pass_Ok ps :
  full ps ->
  backward_pass lk steps disc ps
  = Ok (exercise_pass lk steps ps,
        Some (valuation_of disc (exercise_pass lk steps ps))).
Proof.
  intros H. unfold backward_pass, exercise_pass.
  rewrite backward_loop by exact H.
  replace (steps - 1)%nat with (S (steps - 2)) by lia.
  rewrite range_down_S. reflexivity.
Qed.
End BackwardLoop.

(** With fewer than two steps the loop body never runs. *)
Lemma backward_pass_empty lk steps disc ps :
  (steps <= 1)%nat ->
  backward_pass lk steps disc ps = Ok (ps, None)
  /\ exercise_pass lk steps ps = ps.
Proof.
  intros H. unfold backward_pass, exercise_pass.
  replace (steps - 1)%nat with 0%nat by lia. split; reflexivity.
Qed.

(** C3.  The backward exercise pass completes, and afterwards on every path
    the stop rule sums to 0 or 1 over the time steps, hence to at most 1: a
    path whose stop rule is 1 at step [t] has no stop rule and no cash flow
    at any later step. *)
Theorem C3_at_most_one_exercise :
  forall (lk steps : nat) (disc : R) (prices_matrix : list (list R)),
  exists st,
    backward_pass lk steps disc (map (init_path steps) prices_matrix) = Ok st
    /\ Forall
         (fun p =>
            (sum (SR p) = 0 \/ sum (SR p) = 1)
            /\ sum (SR p) <= 1
            /\ (forall t, nth t (SR p) 0 = 1 ->
                  forall u, (t < u)%nat ->
                    nth u (SR p) 0 = 0 /\ nth u (W p) 0 = 0))
         (fst st).
Proof.
  intros lk steps disc m.
  assert (Hfull : Forall (fun p => length (W p) = (steps + 1)%nat)
                         (map (init_path steps) m)).
  { apply Forall_map, Forall_forall. intros Sp _.
    apply (init_path_at_most_one steps Sp). }
  assert (Hfinal : Forall
            (fun p =>
               (sum (SR p) = 0 \/ sum (SR p) = 1)
               /\ sum (SR p) <= 1
               /\ (forall t, nth t (SR p) 0 = 1 ->
                     forall u, (t < u)%nat ->
                       nth u (SR p) 0 = 0 /\ nth u (W p) 0 = 0))
            (exercise_pass lk steps (map (init_path steps) m))).
  { rewrite exercise_pass_paths, map_map.
    apply Forall_map, Forall_forall. intros Sp _.
    apply (at_most_one_exercise_sum steps 0).
    apply exercise_path_at_most_one. }
  destruct (le_lt_dec 2 steps) as [Hs|Hs].
  - eexists. split; [apply backward_pass_Ok; assumption|exact Hfinal].
  - destruct (backward_pass_empty lk steps disc (map (init_path steps) m))
      as [Hb He]; [lia|].
    eexists. split; [exact Hb|]. cbn [fst]. now rewrite He in Hfinal.
Qed.

(* ================================================================== *)
(** * price_warrant *)

Lemma prepare_paths_full gauss S0 vol steps :
  Forall (fun p => length (W p) = (steps + 1)%nat)
         (prepare_paths gauss S0 vol steps).
Proof.
  unfold prepare_paths. apply Forall_map, Forall_forall. intros Sp _.
  apply (init_path_at_most_one steps).
Qed.



(** With zero or one step the loop body never runs and [w_prc], [se] are
    unbound at the [return]. *)
Lemma price_warrant_unbound gauss S0 T vol :
  (0 <= num_steps T <= 1)%Z ->
  price_warrant gauss S0 T vol = Raise UnboundLocalError.
Proof.
  intros H. unfold price_warrant. cbv zeta.
  destruct (Z.ltb_spec (num_steps T + 1) 0); [lia|].
  destruct (Z.eqb_spec (num_steps T + 1) 0); [lia|].
  fold (last_step T).
  destruct (backward_pass_empty lockout (last_step T) (exp (- r * Q2R dt))
              (prepare_paths gauss S0 vol (last_step T))) as [Hb _].
  { unfold last_step. lia. }
  rewrite Hb. reflexivity.
Qed.

Lemma DCF_row_single d cf :
  length cf = 1%nat -> DCF_row d cf = Ok (d * nth 0 cf 0).
Proof.
  destruct cf as [|c [|c' cf]]; try discriminate. intros _. reflexivity.
Qed.

(** With one step the hoisted valuation discounts the single column. *)
Lemma price_warrant_hoisted_one_step gauss S0 T vol :
  num_steps T = 1%Z ->
  exists res, price_warrant_hoisted gauss S0 T vol = Ok res.
Proof.
  intros H. unfold price_warrant_hoisted. cbv zeta.
  destruct (Z.ltb_spec (num_steps T + 1) 0); [lia|].
  destruct (Z.eqb_spec (num_steps T + 1) 0); [lia|].
  fold (last_step T).
  assert (Hs : last_step T = 1%nat) by (unfold last_step; lia).
  rewrite Hs. unfold valuation, DCF.
  rewrite (mapM_Ok _ (fun cf => exp (- r * Q2R dt) * nth 0 cf 0)).
  - cbn [bind]. eexists. reflexivity.
  - apply Forall_map.
    pose proof (exercise_pass_W_length lockout 1 _ _
                  (prepare_paths_full gauss S0 vol 1)) as Hfull.
    eapply Forall_impl; [|exact Hfull].
    intros p Hp. cbn beta in *. apply DCF_row_single.
    rewrite length_skipn, Hp. reflexivity.
Qed.




(** C7, as the code has it.  For every [T > 0] the number of time steps is
    [int(T/dt)], the integer part of [T/dt] with [dt = 1/252]:
    [steps <= T/dt < steps + 1]. *)
Theorem C7_steps_truncated :
  forall T : Q,
    (0 < T)%Q ->
    num_steps T = Qfloor (T / dt)
    /\ (inject_Z (num_steps T) <= T / dt)%Q
    /\ (T / dt < inject_Z (num_steps T + 1))%Q.
Proof.
  intros T HT.
  assert (E : num_steps T = Qfloor (T / dt)).
  { unfold num_steps, int. destruct (T / dt)%Q as [n d] eqn:Eq.
    cbn [Qnum Qden Qfloor]. apply Z.quot_div_nonneg; [|reflexivity].
    assert (Hpos : (0 < T / dt)%Q).
    { apply Qlt_shift_div_l; [reflexivity|]. now rewrite Qmult_0_l. }
    rewrite Eq in Hpos. unfold Qlt in Hpos. cbn in Hpos. lia. }
  rewrite E. split; [reflexivity|]. split.
  - apply Qfloor_le.
  - apply Qlt_floor.
Qed.

Lemma C7_steps_truncated_witness :
  num_steps (1 # 100) = Qfloor ((1 # 100) / dt)
  /\ (inject_Z (num_steps (1 # 100)) <= (1 # 100) / dt)%Q
  /\ ((1 # 100) / dt < inject_Z (num_steps (1 # 100) + 1))%Q.
Proof.
  apply (C7_steps_truncated (1 # 100)). reflexivity.
Defined.

(** C7 as stated fails: for [T = 0.01], [T/dt = 2.52]; the code takes 2
    steps, and rounding gives 3. *)
Lemma C7_counterexample :
  (0 < 1 # 100)%Q
  /\ num_steps (1 # 100) = 2%Z
  /\ round ((1 # 100) / dt) = 3%Z.
Proof. repeat split. Qed.

(** C9.  With [T = 1/252] there is one step: the source never enters the
    loop that holds the valuation and fails at its [return], while the
    variant that values after the loop returns a result. *)
Theorem C9_hoisted_valuation_one_step :
  forall gauss : nat -> R,
    price_warrant gauss 14 (1 # 252) 0.3 = Raise UnboundLocalError
    /\ exists res, price_warrant_hoisted gauss 14 (1 # 252) 0.3 = Ok res.
Proof.
  intros gauss. split.
  - apply price_warrant_unbound. vm_compute. split; discriminate.
  - apply price_warrant_hoisted_one_step. reflexivity.
Qed.

(** C8.  With [T = 1/252] and [vol = 0] no standard error is returned: the
    call fails at its [return]. *)
Theorem C8_zero_vol_one_step :
  forall (gauss : nat -> R) (S0 : R),
    price_warrant gauss S0 (1 # 252) 0 = Raise UnboundLocalError.
Proof.
  intros gauss S0. apply price_warrant_unbound. vm_compute. split; discriminate.
Qed.

(* ================================================================== *)
(** * The valuation after the loop *)



(* ================================================================== *)
(** * Zero volatility *)








(* ================================================================== *)
(** * Maturities that are not positive *)

Lemma num_steps_nonpos T : (T <= 0)%Q -> (num_steps T <= 0)%Z.
Proof.
  intros HT. unfold num_steps, int. destruct T as [n d].
  unfold Qle in HT. cbn in HT. cbn [Qnum Qden Qdiv Qmult Qinv dt].
  change (Qnum (1 # 252)) with 1%Z. cbn [Qnum Qden Qmult].
  rewrite <- (Z.quot_0_l (Z.pos (d * 1))) by discriminate.
  apply Z.quot_le_mono; lia.
Qed.

(** For [T <= 0] no price is returned: the call ends in an exception, raised
    by numpy for a negative shape or an empty row, or by the [return] for
    the unbound names. *)
Theorem nonpositive_maturity_raises :
  forall (gauss : nat -> R) (S0 : R) (T : Q) (vol : R),
    (T <= 0)%Q ->
    exists e, price_warrant gauss S0 T vol = Raise e.
Proof.
  intros gauss S0 T vol HT. apply num_steps_nonpos in HT.
  destruct (Z_lt_le_dec (num_steps T) 0) as [Hneg|Hzero].
  - unfold price_warrant. cbv zeta.
    destruct (Z.ltb_spec (num_steps T + 1) 0); [now eexists|].
    destruct (Z.eqb_spec (num_steps T + 1) 0); [now eexists|]. lia.
  - exists UnboundLocalError. apply price_warrant_unbound. lia.
Qed.

Lemma nonpositive_maturity_raises_witness :
  exists e, price_warrant (fun _ => 0) 14 0 0.3 = Raise e.
Proof.
  apply (nonpositive_maturity_raises (fun _ => 0) 14 0 0.3). discriminate.
Defined.

(* ================================================================== *)
(** * DCF as a discounted sum *)

Lemma discounted_from_nested d t cf :
  discounted_from d t cf = d ^ t * nested_sum d cf.
Proof.
  revert t; induction cf as [|c cf IH]; intros t; simpl.
  - ring.
  - rewrite IH. simpl. ring.
Qed.

Lemma skipn_cons_nth {A} (l : list A) i d :
  (i < length l)%nat -> skipn i l = nth i l d :: skipn (S i) l.
Proof.
  revert i; induction l as [|a l IH]; intros [|i] Hi; simpl in *;
    try lia; auto.
  apply IH. lia.
Qed.

(** The accumulated value PV(n - k) is the nested sum of the cash flows from
    step n - k - 1 on. *)
Lemma PV_acc_nested d cf k :
  (k + 2 <= length cf)%nat ->
  PV_acc (cash_at cf) d (length cf) k
  = nested_sum d (skipn (length cf - k - 2) cf).
Proof.
  induction k as [|k IH]; intros Hk.
  - cbn [PV_acc]. unfold cash_at.
    rewrite (skipn_cons_nth cf (length cf - 0 - 2) 0) by lia.
    replace (S (length cf - 0 - 2)) with (length cf - 1)%nat by lia.
    rewrite (skipn_cons_nth cf (length cf - 1) 0) by lia.
    rewrite skipn_all2 by lia. simpl.
    replace (length cf - 0 - 2)%nat with (length cf - 1 - 1)%nat by lia.
    ring.
  - cbn [PV_acc]. rewrite IH by lia. unfold cash_at.
    rewrite (skipn_cons_nth cf (length cf - S k - 2) 0) by lia.
    replace (S (length cf - S k - 2)) with (length cf - k - 2)%nat by lia.
    cbn [nested_sum].
    replace (length cf - S k - 1 - 1)%nat with (length cf - S k - 2)%nat by lia.
    ring.
Qed.

Lemma present_value_discounted_sum d cf :
  (2 <= length cf)%nat -> present_value d cf = discounted_sum d cf.
Proof.
  intros H. unfold present_value, PV, discounted_sum.
  rewrite PV_acc_nested by lia.
  replace (length cf - (length cf - 2) - 2)%nat with 0%nat by lia.
  rewrite discounted_from_nested. simpl. ring.
Qed.

Lemma DCF_row_discounted_sum d cf :
  (1 <= length cf)%nat -> DCF_row d cf = Ok (discounted_sum d cf).
Proof.
  intros H. destruct (Nat.eq_dec (length cf) 1) as [E|E].
  - rewrite DCF_row_single by exact E.
    destruct cf as [|c [|c' cf]]; try discriminate.
    unfold discounted_sum. simpl. f_equal. ring.
  - rewrite DCF_row_PV by lia. f_equal.
    apply present_value_discounted_sum. lia.
Qed.

(** On a matrix with at least one column, [DCF] returns for each path the
    sum of its cash flows, the one of step t discounted by d^t. *)
Theorem DCF_is_discounted_sum :
  forall (cf_in : list (list R)) (d : R) (n : nat),
    (1 <= n)%nat ->
    has_columns n cf_in ->
    DCF (Arr2 cf_in) d = Ok (map (discounted_sum d) cf_in).
Proof.
  intros cf_in d n Hn Hcols. unfold DCF. apply mapM_Ok.
  eapply Forall_impl; [|exact Hcols].
  intros row Hrow. cbn beta in Hrow. apply DCF_row_discounted_sum. lia.
Qed.

Lemma DCF_is_discounted_sum_witness :
  DCF (Arr2 [[5; 0; 10]; [1; 2; 3]]) 0.5
  = Ok (map (discounted_sum 0.5) [[5; 0; 10]; [1; 2; 3]]).
Proof.
  apply (DCF_is_discounted_sum [[5; 0; 10]; [1; 2; 3]] 0.5 3).
  - lia.
  - repeat constructor.
Defined.

(** A 1-D array of k cash flows is taken as k paths of one period each, not
    as one path of k periods: every entry is discounted once. *)
Theorem DCF_one_dimensional :
  forall (v : list R) (d : R),
    DCF (Arr1 v) d = Ok (map (Rmult d) v).
Proof.
  intros v d. unfold DCF.
  rewrite (mapM_Ok _ (fun row => d * nth 0 row 0)).
  - now rewrite map_map.
  - apply Forall_map, Forall_forall. intros c _. reflexivity.
Qed.

(** A matrix with paths but no column makes [DCF] fail on its last line,
    [dcf_out[:,0]]. *)
Theorem DCF_no_column :
  forall (cf_in : list (list R)) (d : R),
    cf_in <> [] ->
    has_columns 0 cf_in ->
    DCF (Arr2 cf_in) d = Raise IndexError.
Proof.
  intros cf_in d Hne Hcols. destruct cf_in as [|row m]; [congruence|].
  inversion Hcols as [|? ? Hrow _]; subst.
  destruct row; [|discriminate]. reflexivity.
Qed.

Lemma DCF_no_column_witness : DCF (Arr2 [[]; []]) 0.99 = Raise IndexError.
Proof.
  apply (DCF_no_column [[]; []] 0.99).
  - discriminate.
  - repeat constructor.
Defined.

Lemma discounted_from_nonneg d t cf :
  0 <= d -> Forall (fun c => 0 <= c) cf -> 0 <= discounted_from d t cf.
Proof.
  intros Hd H. revert t; induction H as [|c cf Hc _ IH]; intros t; simpl.
  - lra.
  - specialize (IH (S t)). pose proof (pow_le d t Hd).
    assert (0 <= d ^ t * c) by (apply Rmult_le_pos; auto). simpl in IH. lra.
Qed.

(** [DCF] is linear in the cash flows: discounting [a cf + cf'] entry by
    entry gives [a] times the value of [cf] plus the value of [cf']. *)
Lemma discounted_from_linear d a t cf cf' :
  length cf = length cf' ->
  discounted_from d t (map (fun cc => a * fst cc + snd cc) (combine cf cf'))
  = a * discounted_from d t cf + discounted_from d t cf'.
Proof.
  revert t cf'; induction cf as [|c cf IH]; intros t [|c' cf'] Hlen;
    simpl in *; try discriminate; [ring|].
  rewrite IH by lia. ring.
Qed.

(* ================================================================== *)
(** * The step at which a path is exercised *)

Lemma Rltb_spec x y : Rltb x y = true <-> x < y.
Proof.
  unfold Rltb. destruct (Rlt_dec x y); split; auto; discriminate.
Qed.

Lemma Reqb_spec x y : Reqb x y = true <-> x = y.
Proof.
  unfold Reqb. destruct (Req_dec_T x y); split; auto; discriminate.
Qed.

Lemma upd_unchanged (l : list R) i v : nth i l 0 = v -> upd l i v = l.
Proof. intros <-. apply upd_same. Qed.

Lemma one_hot_length n k v : length (one_hot n k v) = n.
Proof. unfold one_hot. now rewrite upd_length, repeat_length. Qed.

Lemma nth_one_hot n k v u :
  (k < n)%nat -> nth u (one_hot n k v) 0 = if (u =? k)%nat then v else 0.
Proof.
  intros Hk. unfold one_hot. rewrite nth_upd by (rewrite repeat_length; lia).
  now rewrite nth_zeros.
Qed.

Lemma exercised_path_prices steps Sp e : prices (exercised_path steps Sp e) = Sp.
Proof. destruct e; reflexivity. Qed.

Lemma exercised_path_lengths steps Sp e :
  length (W (exercised_path steps Sp e)) = (steps + 1)%nat
  /\ length (SR (exercised_path steps Sp e)) = (steps + 1)%nat.
Proof.
  destruct e; cbn [exercised_path W SR];
    rewrite ?one_hot_length, ?repeat_length; auto.
Qed.

(** Before the step where it is exercised a path has no cash flow and no
    stop rule. *)
Lemma exercised_path_before steps Sp e t :
  (forall u, e = Some u -> (t < u <= steps)%nat) ->
  forall j, (j <= t)%nat ->
    nth j (W (exercised_path steps Sp e)) 0 = 0
    /\ nth j (SR (exercised_path steps Sp e)) 0 = 0.
Proof.
  intros He j Hj. destruct e as [u|]; cbn [exercised_path W SR].
  - specialize (He u eq_refl). rewrite !nth_one_hot by lia.
    destruct (Nat.eqb_spec j u); [lia|]. auto.
  - now rewrite !nth_zeros.
Qed.

Lemma exercise_step_exercised lk steps Sp t e :
  (1 <= t < steps)%nat ->
  (forall u, e = Some u -> (t < u <= steps)%nat) ->
  exercise_step lk t (exercised_path steps Sp e)
  = exercised_path steps Sp
      (if (lk <? t)%nat && exercises_at Sp t then Some t else e).
Proof.
  intros Ht He.
  destruct (exercised_path_lengths steps Sp e) as [HW HSR].
  pose proof (exercised_path_before steps Sp e t He) as Hzero.
  unfold exercise_step. rewrite exercised_path_prices.
  destruct (lk <? t)%nat; [|reflexivity]. cbn [andb].
  fold (exercises_at Sp t).
  destruct (exercises_at Sp t) eqn:Eex.
  - (* exercised at t *)
    apply andb_prop in Eex as [HX _]. apply Rltb_spec in HX.
    rewrite nth_upd_eq by lia. rewrite Reqb_true by reflexivity.
    cbn [exercised_path]. f_equal.
    + apply (nth_ext _ _ 0 0).
      * now rewrite fill_from_length, upd_length, one_hot_length.
      * intros j _. rewrite nth_fill_from, nth_one_hot by lia.
        destruct (Nat.ltb_spec j (t + 1)), (Nat.eqb_spec j t);
          try lia; auto.
        -- subst j. rewrite nth_upd_eq by lia.
           rewrite Rmax_left by lra. ring.
        -- rewrite nth_upd_neq by lia. apply Hzero. lia.
    + apply (nth_ext _ _ 0 0).
      * now rewrite fill_from_length, upd_length, one_hot_length.
      * intros j _. rewrite nth_fill_from, nth_one_hot by lia.
        destruct (Nat.ltb_spec j (t + 1)), (Nat.eqb_spec j t);
          try lia; auto.
        -- subst j. now rewrite nth_upd_eq by lia.
        -- rewrite nth_upd_neq by lia. apply Hzero. lia.
  - (* not exercised at t *)
    rewrite nth_upd_eq by lia. rewrite Reqb_false by lra.
    replace (upd (W (exercised_path steps Sp e)) t (0 * Rmax (nth t Sp 0 - X) 0))
      with (W (exercised_path steps Sp e)).
    2:{ symmetry. apply upd_unchanged. rewrite Rmult_0_l.
        apply (Hzero t (Nat.le_refl t)). }
    replace (upd (SR (exercised_path steps Sp e)) t 0)
      with (SR (exercised_path steps Sp e)).
    2:{ symmetry. apply upd_unchanged. apply (Hzero t (Nat.le_refl t)). }
    destruct e; reflexivity.
Qed.

Lemma exercised_from_bounds lk steps from Sp u :
  (from <= steps)%nat ->
  exercised_from lk steps from Sp = Some u -> (from <= u <= steps)%nat.
Proof.
  intros Hf. unfold exercised_from.
  destruct (find _ _) as [t|] eqn:Efind.
  - intros [= <-]. apply find_some in Efind as [Hin _].
    apply in_seq in Hin. lia.
  - destruct (Rltb X (nth steps Sp 0)); [|discriminate].
    intros [= <-]. lia.
Qed.

Lemma exercised_from_step lk steps t Sp :
  (t < steps)%nat ->
  exercised_from lk steps t Sp
  = if (lk <? t)%nat && exercises_at Sp t then Some t
    else exercised_from lk steps (t + 1) Sp.
Proof.
  intros Ht. unfold exercised_from.
  replace (steps - t)%nat with (S (steps - (t + 1))) by lia.
  cbn [seq find]. replace (S t) with (t + 1)%nat by lia.
  destruct ((lk <? t)%nat && exercises_at Sp t); reflexivity.
Qed.

Lemma init_path_exercised lk steps Sp :
  init_path steps Sp
  = exercised_path steps Sp (exercised_from lk steps steps Sp).
Proof.
  unfold init_path, exercised_from. rewrite Nat.sub_diag. cbn [seq find].
  destruct (Rltb X (nth steps Sp 0)) eqn:EX; cbn [exercised_path].
  - apply Rltb_spec in EX. unfold one_hot.
    now rewrite Rmax_left by lra.
  - f_equal. assert (HX : nth steps Sp 0 <= X).
    { unfold Rltb in EX. destruct (Rlt_dec X (nth steps Sp 0)); [discriminate|lra]. }
    rewrite Rmax_right by lra. apply upd_unchanged, nth_zeros.
Qed.

Lemma exercise_loop_exercised lk steps Sp k :
  (k < steps)%nat ->
  fold_left (fun p t => exercise_step lk t p) (range_down k 0)
            (exercised_path steps Sp (exercised_from lk steps (k + 1) Sp))
  = exercised_path steps Sp (exercised_at lk steps Sp).
Proof.
  induction k as [|k IH]; intros Hk.
  - reflexivity.
  - rewrite range_down_S. cbn [fold_left].
    rewrite exercise_step_exercised.
    + rewrite <- exercised_from_step by lia.
      replace (S k) with (k + 1)%nat by lia. apply IH. lia.
    + lia.
    + intros u Hu. apply exercised_from_bounds in Hu; lia.
Qed.

(** The backward loop on one path comes to this: the path is exercised at
    the first step after the lockout and before maturity where the price is
    above the strike and the next price is 0, or else at maturity when it is
    in the money there; its cash flow is the intrinsic value at that step
    and every other entry of [W] and [SR] is 0. *)
Theorem exercise_path_exercised_at :
  forall (lk steps : nat) (Sp : list R),
    exercise_path lk steps (init_path steps Sp)
    = exercised_path steps Sp (exercised_at lk steps Sp).
Proof.
  intros lk steps Sp. unfold exercise_path.
  destruct (Nat.eq_dec steps 0) as [->|Hs].
  - cbn [Nat.sub range_down seq rev fold_left].
    rewrite (init_path_exercised lk). reflexivity.
  - rewrite (init_path_exercised lk).
    replace steps with (steps - 1 + 1)%nat at 4 by lia.
    apply exercise_loop_exercised. lia.
Qed.

Lemma exercised_at_Some lk steps Sp u :
  exercised_at lk steps Sp = Some u ->
  X < nth u Sp 0
  /\ (u = steps \/ ((lk < u)%nat /\ (1 <= u < steps)%nat /\ nth (u + 1) Sp 0 = 0)).
Proof.
  unfold exercised_at, exercised_from.
  destruct (find _ _) as [t|] eqn:Efind.
  - intros [= <-]. apply find_some in Efind as [Hin Hc].
    apply in_seq in Hin. apply andb_prop in Hc as [Hlk Hex].
    apply andb_prop in Hex as [HX H0].
    apply Nat.ltb_lt in Hlk. apply Rltb_spec in HX. apply Reqb_spec in H0.
    split; [exact HX|]. right. repeat split; auto; lia.
  - destruct (Rltb X (nth steps Sp 0)) eqn:EX; [|discriminate].
    intros [= <-]. apply Rltb_spec in EX. auto.
Qed.

(** After the backward loop, on every path: a cash flow is the stop rule
    times the intrinsic value [S - X] of that step, so it is never negative;
    and the stop rule is 1 only at a step where the price is above the
    strike, which is maturity or a step after the lockout whose next price
    has been zeroed by the redemption. *)
Theorem cash_flow_is_intrinsic_value :
  forall (lk steps : nat) (Sp : list R) (t : nat),
    let p := exercise_path lk steps (init_path steps Sp) in
    nth t (W p) 0 = nth t (SR p) 0 * (nth t Sp 0 - X)
    /\ 0 <= nth t (W p) 0
    /\ (nth t (SR p) 0 = 0 \/ nth t (SR p) 0 = 1)
    /\ (nth t (SR p) 0 = 1 ->
          X < nth t Sp 0
          /\ (t = steps
              \/ ((lk < t < steps)%nat /\ nth (t + 1) Sp 0 = 0))).
Proof.
  intros lk steps Sp t. cbv zeta. rewrite exercise_path_exercised_at.
  destruct (exercised_at lk steps Sp) as [u|] eqn:Eu; cbn [exercised_path W SR].
  - pose proof (exercised_at_Some _ _ _ _ Eu) as [HX Hu].
    assert (Hle : (u < steps + 1)%nat) by (destruct Hu as [->|Hu]; lia).
    rewrite !nth_one_hot by exact Hle.
    destruct (Nat.eqb_spec t u) as [->|Hne].
    + repeat split; try lra; auto.
      destruct Hu as [->|(H1 & H2 & H3)]; [now left|right].
      split; [lia|exact H3].
    + repeat split; try lra; auto; intros; lra.
  - rewrite !nth_zeros. repeat split; try lra; auto; intros; lra.
Qed.

(** During the lockout the instrument is inert: at a step up to the lockout
    and before maturity no path has a cash flow or a stop rule. *)
Theorem lockout_inert :
  forall (lk steps : nat) (Sp : list R) (t : nat),
    (t <= lk)%nat -> (t < steps)%nat ->
    nth t (W (exercise_path lk steps (init_path steps Sp))) 0 = 0
    /\ nth t (SR (exercise_path lk steps (init_path steps Sp))) 0 = 0.
Proof.
  intros lk steps Sp t Hlk Ht. rewrite exercise_path_exercised_at.
  apply exercised_path_before with (t := t); [|lia].
  intros u Hu. apply exercised_at_Some in Hu as [_ [->|(H1 & H2 & _)]]; lia.
Qed.

Lemma lockout_inert_witness :
  nth 2 (W (exercise_path 3 5 (init_path 5 [20; 20; 20; 0; 0; 0]))) 0 = 0
  /\ nth 2 (SR (exercise_path 3 5 (init_path 5 [20; 20; 20; 0; 0; 0]))) 0 = 0.
Proof.
  apply (lockout_inert 3 5 [20; 20; 20; 0; 0; 0] 2); lia.
Defined.

(* ================================================================== *)
(** * The price as a mean of discounted payoffs *)












(* ================================================================== *)
(** * The antithetic draws *)

Lemma normal_length gauss rows cols : length (normal gauss rows cols) = rows.
Proof. unfold normal. now rewrite length_map, length_seq. Qed.

Lemma normal_rows gauss rows cols :
  Forall (fun row => length row = cols) (normal gauss rows cols).
Proof.
  unfold normal. apply Forall_map, Forall_forall. intros i _.
  now rewrite length_map, length_seq.
Qed.

Lemma N_even : (N / 2 + N / 2 = N)%nat.
Proof. apply Nat.eqb_eq. vm_compute. reflexivity. Qed.

Lemma nth_map_Ropp l t : nth t (map Ropp l) 0 = - nth t l 0.
Proof.
  revert t; induction l as [|a l IH]; intros [|t]; simpl; auto; lra.
Qed.

(** Lines 66-67.  There are [N] rows of draws, one per path, each with one
    draw per step, and path [i + N/2] uses the negated draws of path [i]. *)
Theorem antithetic_draws_shape :
  forall (gauss : nat -> R) (steps : nat),
    length (antithetic_draws gauss steps) = N
    /\ Forall (fun row => length row = steps) (antithetic_draws gauss steps)
    /\ (forall i, (i < N / 2)%nat ->
          nth (i + N / 2) (antithetic_draws gauss steps) []
          = map Ropp (nth i (antithetic_draws gauss steps) [])).
Proof.
  intros gauss steps. unfold antithetic_draws. split; [|split].
  - rewrite length_app, length_map, normal_length. apply N_even.
  - apply Forall_app. split; [apply normal_rows|].
    apply Forall_map. eapply Forall_impl; [|apply normal_rows].
    intros row Hrow. cbn beta in *. now rewrite length_map.
  - intros i Hi.
    rewrite (Nat.add_comm i).
    rewrite <- (normal_length gauss (N / 2) steps) at 1.
    rewrite app_nth2_plus.
    rewrite app_nth1 by (rewrite normal_length; exact Hi).
    change (@nil R) with (map Ropp []) at 1. apply map_nth.
Qed.

Lemma simulate_paths_draws gauss S0 vol steps :
  simulate_paths gauss S0 vol steps
  = map (gbm_path S0 ((r - 0.5 * vol ^ 2) * Q2R dt) (vol * sqrt (Q2R dt)) steps)
        (antithetic_draws gauss steps).
Proof. reflexivity. Qed.

Lemma nth_map_in_range {A B} (f : A -> B) l i d d' :
  (i < length l)%nat -> nth i (map f l) d' = f (nth i l d).
Proof.
  intros Hi. rewrite (nth_indep _ d' (f d)) by (now rewrite length_map).
  apply map_nth.
Qed.

(** The matrix [S] of lines 60-69 has [N] rows of [steps + 1] prices, and
    every path starts at [S0]. *)
Theorem simulate_paths_shape :
  forall (gauss : nat -> R) (S0 vol : R) (steps : nat),
    length (simulate_paths gauss S0 vol steps) = N
    /\ Forall (fun Sp => length Sp = (steps + 1)%nat /\ nth 0 Sp 0 = S0)
              (simulate_paths gauss S0 vol steps).
Proof.
  intros gauss S0 vol steps. rewrite simulate_paths_draws. split.
  - rewrite length_map. apply antithetic_draws_shape.
  - apply Forall_map, Forall_forall. intros d _. split.
    + apply gbm_path_length.
    + rewrite gbm_path_nth by lia. reflexivity.
Qed.

Lemma gbm_value_antithetic S0 drift vol_step draws t :
  gbm_value S0 drift vol_step draws t
  * gbm_value S0 drift vol_step (map Ropp draws) t
  = S0 * S0 * exp (2 * drift * INR t).
Proof.
  induction t as [|t IH].
  - simpl. rewrite Rmult_0_r, exp_0. ring.
  - cbn [gbm_value]. rewrite nth_map_Ropp, S_INR.
    set (A := drift + vol_step * nth t draws 0).
    set (B := drift + vol_step * - nth t draws 0).
    assert (E : exp A * exp B = exp (2 * drift))
      by (rewrite <- exp_plus; f_equal; unfold A, B; ring).
    assert (E' : exp (2 * drift * (INR t + 1))
                 = exp (2 * drift * INR t) * exp (2 * drift))
      by (rewrite <- exp_plus; f_equal; ring).
    rewrite E', <- E.
    transitivity
      (gbm_value S0 drift vol_step draws t
       * gbm_value S0 drift vol_step (map Ropp draws) t
       * (exp A * exp B)); [ring|].
    rewrite IH. ring.
Qed.

(** The prices of a path and of its antithetic partner multiply, at every
    step t, to S0^2 exp(2 drift t): the shocks cancel. *)
Theorem antithetic_paths_product :
  forall (gauss : nat -> R) (S0 vol : R) (steps i t : nat),
    (i < N / 2)%nat -> (t <= steps)%nat ->
    nth t (nth i (simulate_paths gauss S0 vol steps) []) 0
    * nth t (nth (i + N / 2) (simulate_paths gauss S0 vol steps) []) 0
    = S0 * S0 * exp (2 * ((r - 0.5 * vol ^ 2) * Q2R dt) * INR t).
Proof.
  intros gauss S0 vol steps i t Hi Ht.
  destruct (antithetic_draws_shape gauss steps) as (Hlen & _ & Hanti).
  pose proof N_even as HN.
  rewrite simulate_paths_draws.
  rewrite !(nth_map_in_range _ _ _ []) by lia.
  rewrite Hanti by exact Hi.
  rewrite !gbm_path_nth by exact Ht.
  apply gbm_value_antithetic.
Qed.

Lemma antithetic_paths_product_witness :
  nth 1 (nth 0 (simulate_paths (fun _ => 1) 14 0.3 2) []) 0
  * nth 1 (nth (0 + N / 2) (simulate_paths (fun _ => 1) 14 0.3 2) []) 0
  = 14 * 14 * exp (2 * ((r - 0.5 * 0.3 ^ 2) * Q2R dt) * INR 1).
Proof.
  apply (antithetic_paths_product (fun _ => 1) 14 0.3 2 0 1).
  - apply half_N_pos.
  - lia.
Defined.

(* ================================================================== *)
(** * Bounds on the barrier counts and on the redemption *)

Lemma count_ge_le_length level a : (count_ge level a <= length a)%nat.
Proof. unfold count_ge. apply filter_length_le. Qed.

Lemma slice_length_le {A} lo hi (l : list A) :
  (length (slice lo hi l) <= hi - lo)%nat.
Proof. unfold slice. apply firstn_le_length. Qed.

Lemma slice_length {A} lo hi (l : list A) :
  (hi <= length l)%nat -> length (slice lo hi l) = (hi - lo)%nat.
Proof.
  intros H. unfold slice. rewrite length_firstn, length_skipn. lia.
Qed.

(** The row of counts has one entry per step; an entry counts at most
    [min(30, t - lockout + 1)] prices, and is 0 up to the lockout. *)
Theorem barrier_counts_bounds :
  forall (lk steps : nat) (Sp : list R) (t : nat),
    length (barrier_counts lk steps Sp) = (steps + 1)%nat
    /\ (nth t (barrier_counts lk steps Sp) 0 <= Nat.min 30 (t - lk + 1))%nat
    /\ ((t <= lk)%nat -> nth t (barrier_counts lk steps Sp) 0%nat = 0%nat).
Proof.
  intros lk steps Sp t. unfold barrier_counts.
  split; [apply barrier_counts_with_length|]. split.
  - destruct (le_lt_dec t lk) as [Hle|Hlt].
    { rewrite barrier_counts_with_nth_lockout by exact Hle. lia. }
    destruct (le_lt_dec t steps) as [Hts|Hts].
    + rewrite barrier_counts_with_nth by lia. unfold window.
      destruct (Nat.ltb_spec (t - lk) 29).
      * etransitivity; [apply count_ge_le_length|].
        etransitivity; [apply slice_length_le|]. lia.
      * etransitivity; [apply count_ge_le_length|].
        etransitivity; [apply slice_length_le|]. lia.
    + rewrite nth_overflow by (rewrite barrier_counts_with_length; lia). lia.
  - apply barrier_counts_with_nth_lockout.
Qed.

Lemma existsb_all_false {A} (f : A -> bool) l :
  (forall x, In x l -> f x = false) -> existsb f l = false.
Proof.
  induction l as [|a l IH]; intros H; simpl; auto.
  rewrite (H a) by now left. apply IH. intros x Hx. apply H. now right.
Qed.

(** The count needs 19 steps after the lockout to reach 20, and the
    redemption takes another 22: the first 41 prices after the lockout are
    never zeroed. *)
Theorem no_redemption_before_41_steps :
  forall (lk steps : nat) (Sp : list R) (u : nat),
    (u < lk + 41)%nat ->
    nth u (snd (redemption_tracker lk steps Sp)) 0 = nth u Sp 0.
Proof.
  intros lk steps Sp u Hu. cbn [redemption_tracker snd]. unfold redeem.
  rewrite redeem_loop_nth. rewrite existsb_all_false; [reflexivity|].
  intros t _. apply andb_false_iff.
  destruct (Nat.leb_spec 20 (nth t (barrier_counts lk steps Sp) 0%nat))
    as [H20|]; [right|now left].
  destruct (barrier_counts_bounds lk steps Sp t) as (_ & Hb & Hz).
  apply Nat.leb_gt.
  destruct (le_lt_dec t lk) as [Hle|Hlt]; [rewrite Hz in H20 by exact Hle; lia|].
  lia.
Qed.

Lemma no_redemption_before_41_steps_witness :
  nth 40 (snd (redemption_tracker 0 60 (repeat 20 61))) 0 = nth 40 (repeat 20 61) 0.
Proof.
  apply (no_redemption_before_41_steps 0 60 (repeat 20 61) 40). lia.
Defined.

(* ================================================================== *)
(** * Paths that never trigger the redemption *)

Lemma find_all_false {A} (f : A -> bool) l :
  (forall x, In x l -> f x = false) -> find f l = None.
Proof.
  induction l as [|a l IH]; intros H; simpl; auto.
  rewrite (H a) by now left. apply IH. intros x Hx. apply H. now right.
Qed.

Lemma redeem_not_triggered lk steps Sp :
  (forall t, (t < steps - 1)%nat ->
     (nth t (barrier_counts lk steps Sp) 0 < 20)%nat) ->
  snd (redemption_tracker lk steps Sp) = Sp.
Proof.
  intros H. cbn [redemption_tracker snd]. apply (nth_ext _ _ 0 0).
  - apply redeem_length.
  - intros u _. unfold redeem. rewrite redeem_loop_nth.
    rewrite existsb_all_false; [reflexivity|].
    intros t Ht. apply in_range in Ht. apply andb_false_iff. left.
    apply Nat.leb_gt. apply H. lia.
Qed.

Lemma exercised_at_no_zero lk steps Sp :
  (forall t, (1 <= t <= steps)%nat -> nth t Sp 0 <> 0) ->
  exercised_at lk steps Sp
  = if Rltb X (nth steps Sp 0) then Some steps else None.
Proof.
  intros H. unfold exercised_at, exercised_from.
  rewrite find_all_false; [reflexivity|].
  intros t Ht. apply in_seq in Ht. apply andb_false_iff. right.
  apply andb_false_iff. right. apply Reqb_false. apply H. lia.
Qed.

(** A path whose barrier count stays below 20 is never redeemed, and its
    payoff is that of a European call: the intrinsic value at maturity,
    discounted over all the steps. *)
Theorem unredeemed_path_pays_at_maturity :
  forall (disc : R) (lk steps : nat) (Sp : list R),
    (forall t, (t <= steps)%nat -> 0 < nth t Sp 0) ->
    (forall t, (t < steps - 1)%nat ->
       (nth t (barrier_counts lk steps Sp) 0 < 20)%nat) ->
    snd (redemption_tracker lk steps Sp) = Sp
    /\ path_payoff disc lk steps (snd (redemption_tracker lk steps Sp))
       = disc ^ steps * Rmax (nth steps Sp 0 - X) 0.
Proof.
  intros disc lk steps Sp Hpos Hcount.
  rewrite redeem_not_triggered by exact Hcount. split; [reflexivity|].
  unfold path_payoff. rewrite exercised_at_no_zero.
  - destruct (Rltb X (nth steps Sp 0)) eqn:EX.
    + apply Rltb_spec in EX. now rewrite Rmax_left by lra.
    + assert (nth steps Sp 0 <= X).
      { unfold Rltb in EX. destruct (Rlt_dec X (nth steps Sp 0)); [discriminate|lra]. }
      rewrite Rmax_right by lra. ring.
  - intros t Ht. specialize (Hpos t (proj2 Ht)). lra.
Qed.

Lemma unredeemed_path_pays_at_maturity_witness :
  snd (redemption_tracker 0 2 [14; 15; 16]) = [14; 15; 16]
  /\ path_payoff 0.99 0 2 (snd (redemption_tracker 0 2 [14; 15; 16]))
     = 0.99 ^ 2 * Rmax (nth 2 [14; 15; 16] 0 - X) 0.
Proof.
  apply (unredeemed_path_pays_at_maturity 0.99 0 2 [14; 15; 16]).
  - intros t Ht. destruct t as [|[|[|t]]]; simpl; try lra; lia.
  - intros t Ht. replace t with 0%nat by lia.
    destruct (barrier_counts_bounds 0 2 [14; 15; 16] 0) as (_ & _ & H0).
    rewrite H0 by lia. lia.
Defined.

(* ================================================================== *)
(** * Paths that stay at the barrier after the lockout *)

Lemma nth_slice {A} lo hi (l : list A) i d :
  nth i (slice lo hi l) d = if (i <? hi - lo)%nat then nth (lo + i) l d else d.
Proof. unfold slice. now rewrite nth_firstn, nth_skipn. Qed.

Lemma slice_Forall (P : R -> Prop) lo hi l :
  (hi <= length l)%nat ->
  (forall t, (lo <= t < hi)%nat -> P (nth t l 0)) ->
  Forall P (slice lo hi l).
Proof.
  intros Hhi H. apply Forall_nth. intros i d Hi.
  rewrite slice_length in Hi by exact Hhi.
  rewrite nth_slice. rewrite (proj2 (Nat.ltb_lt i (hi - lo))) by exact Hi.
  rewrite (nth_indep l d 0) by lia. apply H. lia.
Qed.

Lemma find_seq_first (f : nat -> bool) a n k :
  (a <= k < a + n)%nat ->
  (forall j, (a <= j < k)%nat -> f j = false) ->
  f k = true ->
  find f (seq a n) = Some k.
Proof.
  revert a; induction n as [|n IH]; intros a Hk Hbefore Hfk; [lia|].
  cbn [seq find]. destruct (Nat.eq_dec a k) as [->|Hne].
  - now rewrite Hfk.
  - rewrite (Hbefore a) by lia. apply IH; auto; try lia.
    intros j Hj. apply Hbefore. lia.
Qed.

(** A path whose 20 prices from the lockout on are all at least 18 reaches
    the count of 20 at step lockout + 19: its prices are kept up to step
    lockout + 40 and zeroed from step lockout + 41 on.  If it is positive up
    to step lockout + 40 and above the strike there, it is exercised at that
    step, for the intrinsic value discounted over lockout + 40 steps. *)
Theorem barrier_run_is_redeemed_and_exercised :
  forall (disc : R) (lk steps : nat) (Sp : list R),
    length Sp = (steps + 1)%nat ->
    (lk + 41 <= steps)%nat ->
    (forall t, (lk <= t <= lk + 19)%nat -> 18 <= nth t Sp 0) ->
    (forall u, (u <= lk + 40)%nat ->
       nth u (snd (redemption_tracker lk steps Sp)) 0 = nth u Sp 0)
    /\ (forall u, (lk + 41 <= u <= steps)%nat ->
          nth u (snd (redemption_tracker lk steps Sp)) 0 = 0)
    /\ ((forall t, (t <= lk + 40)%nat -> 0 < nth t Sp 0) ->
        X < nth (lk + 40) Sp 0 ->
        exercised_at lk steps (snd (redemption_tracker lk steps Sp))
        = Some (lk + 40)%nat
        /\ path_payoff disc lk steps (snd (redemption_tracker lk steps Sp))
           = disc ^ (lk + 40) * (nth (lk + 40) Sp 0 - X)).
Proof.
  intros disc lk steps Sp Hlen Hsteps Hrun.
  assert (Hkeep : forall u, (u <= lk + 40)%nat ->
            nth u (snd (redemption_tracker lk steps Sp)) 0 = nth u Sp 0).
  { intros u Hu. apply no_redemption_before_41_steps. lia. }
  assert (Hzero : forall u, (lk + 41 <= u <= steps)%nat ->
            nth u (snd (redemption_tracker lk steps Sp)) 0 = 0).
  { intros u Hu. cbn [redemption_tracker snd].
    apply redeem_zero_from with (t := (lk + 19)%nat); try lia.
    unfold barrier_counts. rewrite barrier_counts_with_nth by lia.
    replace (lk + 19 - lk <? 29)%nat with true
      by (symmetry; apply Nat.ltb_lt; lia).
    rewrite count_ge_all.
    - rewrite slice_length by lia. lia.
    - apply slice_Forall; [lia|]. intros t Ht. apply Hrun. lia. }
  split; [exact Hkeep|]. split; [exact Hzero|].
  intros Hpos HX.
  assert (Hex : exercised_at lk steps (snd (redemption_tracker lk steps Sp))
                = Some (lk + 40)%nat).
  { unfold exercised_at, exercised_from.
    rewrite (find_seq_first _ 1 (steps - 1) (lk + 40)); [reflexivity|lia| |].
    - intros j Hj. apply andb_false_iff.
      destruct (Nat.ltb_spec lk j) as [Hlk|]; [right|now left].
      apply andb_false_iff. right. apply Reqb_false.
      rewrite Hkeep by lia.
      assert (0 < nth (j + 1) Sp 0) by (apply Hpos; lia). lra.
    - apply andb_true_intro. split; [apply Nat.ltb_lt; lia|].
      apply andb_true_intro. split.
      + apply Rltb_true. now rewrite Hkeep by lia.
      + apply Reqb_true. apply Hzero. lia. }
  split; [exact Hex|].
  unfold path_payoff. rewrite Hex. now rewrite Hkeep by lia.
Qed.

Lemma barrier_run_is_redeemed_and_exercised_witness :
  nth 41 (snd (redemption_tracker 0 41 (repeat 20 42))) 0 = 0.
Proof.
  refine (proj1 (proj2 (barrier_run_is_redeemed_and_exercised
                          0.99 0 41 (repeat 20 42) _ _ _)) 41%nat _).
  - reflexivity.
  - lia.
  - intros t Ht.
    destruct (Nat.lt_ge_cases t 42) as [H|H]; [|lia].
    rewrite (nth_indep _ 0 20) by (rewrite repeat_length; exact H).
    rewrite nth_repeat. lra.
  - lia.
Defined.

(* ================================================================== *)
(** * Zero volatility: the price in closed form *)













(* ================================================================== *)
(** * The step from which a path is redeemed *)

Lemma existsb_delay_find (f : nat -> bool) u a n :
  existsb (fun t => f t && (t + 22 <=? u)%nat) (seq a n)
  = match find f (seq a n) with
    | Some t => (t + 22 <=? u)%nat
    | None => false
    end.
Proof.
  revert a; induction n as [|n IH]; intros a; [reflexivity|].
  cbn [seq existsb find]. destruct (f a); cbn [andb orb].
  - destruct (Nat.leb_spec (a + 22) u) as [Hle|Hgt]; [reflexivity|].
    apply existsb_all_false. intros t Ht. apply in_seq in Ht.
    apply andb_false_iff. right. apply Nat.leb_gt. lia.
  - apply IH.
Qed.

(** The masked zeroing of lines 83-84 comes to one assignment per path: the
    prices are zeroed from 22 steps after the first step of the loop whose
    count reaches 20, and a path without such a step is left as it is. *)
Theorem redeem_from_first_trigger :
  forall (steps : nat) (B18 : list nat) (Sp : list R),
    redeem steps B18 Sp
    = match redeemed_at steps B18 with
      | Some k => fill_from k 0 Sp
      | None => Sp
      end.
Proof.
  intros steps B18 Sp. apply (nth_ext _ _ 0 0).
  - rewrite redeem_length. destruct (redeemed_at steps B18); auto.
    now rewrite fill_from_length.
  - intros u _. unfold redeem, redeemed_at, range.
    rewrite redeem_loop_nth.
    rewrite (existsb_delay_find (fun t => (20 <=? nth t B18 0%nat)%nat)).
    destruct (find _ _) as [t|]; [|reflexivity].
    rewrite nth_fill_from.
    destruct (Nat.leb_spec (t + 22) u), (Nat.ltb_spec u (t + 22));
      try reflexivity; lia.
Qed.

(* ================================================================== *)
(** * DCF is linear *)

(** The present value of [a cf + cf'], taken entry by entry on two rows of
    the same length, is [a] times that of [cf] plus that of [cf']. *)
Theorem DCF_linear :
  forall (d a : R) (cf cf' : list R),
    (1 <= length cf)%nat ->
    length cf = length cf' ->
    exists v v',
      DCF (Arr2 [cf]) d = Ok [v]
      /\ DCF (Arr2 [cf']) d = Ok [v']
      /\ DCF (Arr2 [map (fun cc => a * fst cc + snd cc) (combine cf cf')]) d
         = Ok [a * v + v'].
Proof.
  intros d a cf cf' Hlen Heq.
  exists (discounted_sum d cf), (discounted_sum d cf').
  unfold DCF. cbn [mapM].
  rewrite !DCF_row_discounted_sum;
    rewrite ?length_map, ?length_combine; try lia.
  cbn [bind]. repeat split. do 2 f_equal.
  apply discounted_from_linear. exact Heq.
Qed.

Lemma DCF_linear_witness :
  exists v v',
    DCF (Arr2 [[5; 0; 10]]) 0.99 = Ok [v]
    /\ DCF (Arr2 [[1; 2; 3]]) 0.99 = Ok [v']
    /\ DCF (Arr2 [map (fun cc => 2 * fst cc + snd cc)
                      (combine [5; 0; 10] [1; 2; 3])]) 0.99
       = Ok [2 * v + v'].
Proof.
  apply (DCF_linear 0.99 2 [5; 0; 10] [1; 2; 3]).
  - simpl. lia.
  - reflexivity.
Defined.
